(** * img-pdf: the registry, the page geometry and the PDF pipeline of App.js

    A shallow embedding of the computational part of [src/App.js]: the
    handlers that reorder and remove the selected images, the per-page
    geometry computed inside [generatePDF], the page list it builds, and
    the asynchronous run of [generatePDF] cut at its [await] points. *)

From Stdlib Require Import QArith Lqa ZArith String Ascii List.
From stdpp Require Import base decidable option list strings pretty.

Local Open Scope string_scope.

(** ** JavaScript numbers

    A number is an exact rational or one of the three special values of
    IEEE-754 arithmetic.  Rounding and overflow are abstracted (the spec
    states its numeric properties "within floating tolerance"), and the
    sign of zero is not tracked: every zero is [+0].  The operations are
    therefore exact only where no zero of negative sign is divided by,
    which is the case of every property below: they take dimensions that
    are positive, or zero with the positive sign. *)

Inductive number : Type :=
  | Fin (q : Q)
  | PosInf
  | NegInf
  | NaN.

Definition Qzero (q : Q) : bool := Qeq_bool q 0.
Definition Qpos (q : Q) : bool := negb (Qle_bool q 0).
Definition Qneg (q : Q) : bool := negb (Qle_bool 0 q).

(** [a / b] *)
Definition js_div (a b : number) : number :=
  match a, b with
  | NaN, _ | _, NaN => NaN
  | Fin x, Fin y =>
      if Qzero y then
        if Qzero x then NaN else if Qpos x then PosInf else NegInf
      else Fin (x / y)
  | Fin _, (PosInf | NegInf) => Fin 0
  | PosInf, Fin y => if Qneg y then NegInf else PosInf
  | NegInf, Fin y => if Qneg y then PosInf else NegInf
  | (PosInf | NegInf), (PosInf | NegInf) => NaN
  end.

(** [a * b] *)
Definition js_mul (a b : number) : number :=
  match a, b with
  | NaN, _ | _, NaN => NaN
  | Fin x, Fin y => Fin (x * y)
  | Fin x, PosInf | PosInf, Fin x =>
      if Qzero x then NaN else if Qpos x then PosInf else NegInf
  | Fin x, NegInf | NegInf, Fin x =>
      if Qzero x then NaN else if Qpos x then NegInf else PosInf
  | PosInf, PosInf | NegInf, NegInf => PosInf
  | PosInf, NegInf | NegInf, PosInf => NegInf
  end.

(** [a - b] *)
Definition js_sub (a b : number) : number :=
  match a, b with
  | NaN, _ | _, NaN => NaN
  | Fin x, Fin y => Fin (x - y)
  | Fin _, PosInf => NegInf
  | Fin _, NegInf => PosInf
  | PosInf, PosInf | NegInf, NegInf => NaN
  | PosInf, _ => PosInf
  | NegInf, _ => NegInf
  end.

(** [a > b]; any comparison with [NaN] is false. *)
Definition js_gt (a b : number) : bool :=
  match a, b with
  | NaN, _ | _, NaN => false
  | Fin x, Fin y => negb (Qle_bool x y)
  | PosInf, PosInf => false
  | PosInf, _ => true
  | _, PosInf => false
  | NegInf, _ => false
  | Fin _, NegInf => true
  end.

(** ** Images

    The objects built by [pickImages] (lines 82-87): [width] and
    [height] are whatever numbers the picker reports. *)

Record img : Type := {
  id : string;
  uri : string;
  width : number;
  height : number;
}.

(** [{...img, dataUri}] (lines 141-144). *)
Record imageWithData : Type := {
  image : img;
  dataUri : string;
}.

(** ** Page geometry (lines 157-180)

    The constants of [generatePDF] and the geometry its second [map]
    callback computes for one image. *)

Definition pageWidth : number := Fin 794.
Definition pageHeight : number := Fin 1123.
Definition maxImageWidth : number := pageWidth.
Definition maxImageHeight : number := pageHeight.

Record geometry : Type := {
  imageWidth : number;
  imageHeight : number;
  leftPos : number;
  topPos : number;
}.

Definition aspectRatio (i : img) : number := js_div (width i) (height i).

(** Lines 163-173 and 179-180: width first, height second if the
    width-constrained height overflows the page, then the centering. *)
Definition fit (i : img) : geometry :=
  let aspectRatio := aspectRatio i in
  let imageWidth := maxImageWidth in
  let imageHeight := js_div maxImageWidth aspectRatio in
  let '(imageWidth, imageHeight) :=
    if js_gt imageHeight maxImageHeight
    then (js_mul maxImageHeight aspectRatio, maxImageHeight)
    else (imageWidth, imageHeight) in
  let leftPos := js_div (js_sub pageWidth imageWidth) (Fin 2) in
  let topPos := js_div (js_sub pageHeight imageHeight) (Fin 2) in
  {| imageWidth := imageWidth; imageHeight := imageHeight;
     leftPos := leftPos; topPos := topPos |}.

(** ** Arrays

    A JavaScript array of [A]: an entry is a value or [undefined].  A
    hole left by an assignment past the end reads as [undefined] and is
    identified with it; the handlers below only index, assign and spread,
    which do not tell the two apart.  [map] and [filter] do (they skip a
    hole): the properties of a list grown past its end therefore speak of
    the positions that were assigned and of the entries that were there,
    not of the positions skipped. *)

Abbreviation array A := (list (option A)).

Section Registry.
Context {A : Type}.

(** [a[index]]: [undefined] outside the array. *)
Definition at_index (a : array A) (index : Z) : option A :=
  if (index <? 0)%Z then None
  else match a !! Z.to_nat index with
       | Some v => v
       | None => None
       end.

(** [a[index] = v]: an index past the end extends the array, the
    skipped positions reading as [undefined]; a negative index, or one
    above the largest array index [2^32 - 2], names an ordinary property
    and leaves the entries alone. *)
Definition assign (a : array A) (index : Z) (v : option A) : array A :=
  if (index <? 0)%Z then a
  else
    let n := Z.to_nat index in
    if decide (n < length a)%nat then <[n:=v]> a
    else if (index <? 4294967295)%Z
         then a ++ replicate (n - length a) None ++ [v]
         else a.

(** Lines 99-104.  The result is the next value of the [images] state:
    the early [return] leaves it as it is. *)
Definition moveImageUp (images : array A) (index : Z) : array A :=
  if (index =? 0)%Z then images
  else
    let newImages := images in
    let '(x, y) := (at_index newImages index, at_index newImages (index - 1)) in
    let newImages := assign newImages (index - 1) x in
    let newImages := assign newImages index y in
    newImages.

(** Lines 106-111. *)
Definition moveImageDown (images : array A) (index : Z) : array A :=
  if (index =? Z.of_nat (length images) - 1)%Z then images
  else
    let newImages := images in
    let '(x, y) := (at_index newImages (index + 1), at_index newImages index) in
    let newImages := assign newImages index x in
    let newImages := assign newImages (index + 1) y in
    newImages.

(** The array of the values [l], without [undefined] entries. *)
Definition dense (l : list A) : array A := Some <$> l.
End Registry.

(** ** Errors

    A thrown value: an [Error] built with a message, or the [TypeError]
    of reading a property of [undefined] (its message is the engine's). *)

Inductive error : Type :=
  | Error (message : string)
  | TypeError (property : string).

Inductive result (A : Type) : Type :=
  | Ok (value : A)
  | Throw (e : error).
Arguments Ok {A} value.
Arguments Throw {A} e.

(** Lines 95-97: [prev.filter((img) => img.id !== id)].  The callback
    reads [img.id], which throws on an [undefined] entry. *)
Fixpoint removeImage (id0 : string) (prev : array img) : result (array img) :=
  match prev with
  | [] => Ok []
  | None :: _ => Throw (TypeError "id")
  | Some img :: prev' =>
      match removeImage id0 prev' with
      | Throw e => Throw e
      | Ok rest => Ok (if String.eqb (id img) id0 then rest else Some img :: rest)
      end
  end.

(** ** Encoding one image (lines 124-149) *)

Definition toLower (c : ascii) : ascii :=
  let n := nat_of_ascii c in
  if (65 <=? n)%nat && (n <=? 90)%nat then ascii_of_nat (n + 32) else c.

(** [s.toLowerCase()], on the ASCII letters. *)
Fixpoint toLowerCase (s : string) : string :=
  match s with
  | EmptyString => EmptyString
  | String c s' => String (toLower c) (toLowerCase s')
  end.

(** [s.includes(sub)] *)
Fixpoint includes (s sub : string) : bool :=
  String.prefix sub s ||
  match s with
  | EmptyString => false
  | String _ s' => includes s' sub
  end.

Definition mimeType (uri : string) : string :=
  if includes (toLowerCase uri) ".png" || includes (toLowerCase uri) "png"
  then "image/png" else "image/jpeg".

(** ** The page list (lines 162-191)

    One page per entry: the values the template interpolates.  The
    markup around them is constant, and [join('')] keeps the order. *)

Record page : Type := {
  pageBreak : string;
  src : string;
  box : geometry;
}.

Definition imageHTML (imagesWithData : list imageWithData) : list page :=
  imap (λ index img,
    let pageBreak :=
      if (Z.of_nat index <? Z.of_nat (length imagesWithData) - 1)%Z
      then "page-break-after: always;" else "" in
    {| pageBreak := pageBreak; src := dataUri img; box := fit (image img) |})
    imagesWithData.

(** The page asks for a break after it. *)
Definition pageBreakAfter (p : page) : bool :=
  negb (String.eqb (pageBreak p) "").

(** ** The outside world

    What one run of [generatePDF] gets back from the modules it calls:
    the file reader, the printer, the sharing sheet, the platform, the
    order in which the read promises settle, and the engine's message for
    a [TypeError]. *)

Inductive platform : Type := android | ios | other.

Record World : Type := {
  readAsStringAsync : string → result string;
  printToFileAsync : list page → result string;
  Platform_OS : platform;
  isAvailableAsync : result bool;
  shareAsync : string → option string → result unit;
  settled : list nat;
  TypeError_message : string → string;
}.

(** [error.message] *)
Definition message (w : World) (e : error) : string :=
  match e with
  | Error m => m
  | TypeError property => TypeError_message w property
  end.

(** The callback of the first [map] (lines 124-149), run to the
    settlement of its promise for the entry at [index]. *)
Definition readImage (w : World) (index : nat) (img : option img)
    : result imageWithData :=
  let try_ : result imageWithData :=
    match img with
    | None => Throw (TypeError "uri")
    | Some img =>
        match readAsStringAsync w (uri img) with
        | Throw e => Throw e
        | Ok base64 =>
            Ok {| image := img;
                  dataUri := "data:" +:+ mimeType (uri img) +:+ ";base64," +:+ base64 |}
        end
    end in
  match try_ with
  | Ok v => Ok v
  | Throw error =>
      Throw (Error ("Failed to process image " +:+ pretty (index + 1)%nat +:+ ": "
                    +:+ message w error))
  end.

(** The first rejection met when the promises are visited in [order]. *)
Fixpoint first_rejection {A} (order : list nat) (promises : list (result A))
    : option error :=
  match order with
  | [] => None
  | k :: order' =>
      match promises !! k with
      | Some (Throw e) => Some e
      | _ => first_rejection order' promises
      end
  end.

Definition fulfilled {A} (promises : list (result A)) : list A :=
  omap (λ p, match p with Ok v => Some v | Throw _ => None end) promises.

(** [Promise.all(promises)]: rejected with the reason of the promise
    that rejects first, fulfilled with all the values otherwise.  The
    promises settle in [order]; those it does not list settle after it,
    by position. *)
Definition Promise_all {A} (order : list nat) (promises : list (result A))
    : result (list A) :=
  match first_rejection (order ++ seq 0 (length promises)) promises with
  | Some e => Throw e
  | None => Ok (fulfilled promises)
  end.

(** Lines 259-273. *)
Definition savePDFAndroid (w : World) (pdfUri : string) : list (string * string) :=
  match isAvailableAsync w with
  | Throw error => [("Error", "Failed to save PDF: " +:+ message w error)]
  | Ok false => [("Error", "Sharing is not available on this device.")]
  | Ok true =>
      match shareAsync w pdfUri (Some "Save PDF") with
      | Throw error => [("Error", "Failed to save PDF: " +:+ message w error)]
      | Ok _ => []
      end
  end.

(** Lines 275-289. *)
Definition savePDFiOS (w : World) (pdfUri : string) : list (string * string) :=
  match isAvailableAsync w with
  | Throw error => [("Error", "Failed to save PDF: " +:+ message w error)]
  | Ok false => [("Error", "Sharing is not available on this device.")]
  | Ok true =>
      match shareAsync w pdfUri (Some "Save PDF to Files") with
      | Throw error => [("Error", "Failed to save PDF: " +:+ message w error)]
      | Ok _ => []
      end
  end.

(** Lines 239-248: the alerts raised while saving, or the error that
    escapes to the [catch] of [generatePDF]. *)
Definition save (w : World) (uri : string) : result (list (string * string)) :=
  match Platform_OS w with
  | android => Ok (savePDFAndroid w uri)
  | ios => Ok (savePDFiOS w uri)
  | other =>
      match isAvailableAsync w with
      | Throw e => Throw e
      | Ok false => Ok []
      | Ok true =>
          match shareAsync w uri None with
          | Throw e => Throw e
          | Ok _ => Ok []
          end
      end
  end.

(** ** The component state and one run of [generatePDF]

    [alerts] is the log of the [Alert.alert] calls, oldest first. *)

Record App : Type := {
  images : array img;
  isGenerating : bool;
  alerts : list (string * string);
}.

Definition Alert_alert (title text : string) (st : App) : App :=
  {| images := images st; isGenerating := isGenerating st;
     alerts := alerts st ++ [(title, text)] |}.

Definition setIsGenerating (b : bool) (st : App) : App :=
  {| images := images st; isGenerating := b; alerts := alerts st |}.

Definition setImages (newImages : array img) (st : App) : App :=
  {| images := newImages; isGenerating := isGenerating st; alerts := alerts st |}.

(** Where a run of [generatePDF] is suspended: at the [await] of line
    152 with the list it closed over, at the [await] of line 235 with the
    pages it composed, and, with the document, at the [await] of
    [isAvailableAsync] (lines 245, 261, 277) and then at the [await] of
    [shareAsync] (lines 246, 262, 278). *)
Inductive stage : Type :=
  | Encoding (images : array img)
  | Rendering (html : list page)
  | Saving (uri : string)
  | Sharing (uri : string).

(** Lines 251-256: the [catch] and the [finally]. *)
Definition failed (w : World) (error : error) (st : App) : App :=
  setIsGenerating false
    (Alert_alert "Error" ("Failed to generate PDF: " +:+ message w error) st).

(** Lines 250 and 254-255: the save step has shown the alerts [shown]
    (those of the [catch] and the [else] of lines 259-289) and returned. *)
Definition succeeded (shown : list (string * string)) (st : App) : App :=
  let st := foldl (λ st a, Alert_alert a.1 a.2 st) st shown in
  setIsGenerating false (Alert_alert "Success" "PDF generated successfully!" st).

(** Lines 113-119 and 124: the call, up to its first [await]. *)
Definition generatePDF (st : App) : App * option stage :=
  if (length (images st) =? 0)%nat then
    (Alert_alert "No Images" "Please select at least one image to convert to PDF." st,
     None)
  else (setIsGenerating true st, Some (Encoding (images st))).

(** The awaited promise settles and the run goes on to its next [await],
    or ends ([None]). *)
Definition resume (w : World) (s : stage) (st : App) : App * option stage :=
  match s with
  | Encoding images =>
      let imageDataPromises := imap (readImage w) images in
      match Promise_all (settled w) imageDataPromises with
      | Throw error => (failed w error st, None)
      | Ok imagesWithData => (st, Some (Rendering (imageHTML imagesWithData)))
      end
  | Rendering html =>
      match printToFileAsync w html with
      | Throw error => (failed w error st, None)
      | Ok uri => (st, Some (Saving uri))
      end
  | Saving uri =>
      match Platform_OS w, isAvailableAsync w with
      | _, Ok true => (st, Some (Sharing uri))
      | (android | ios), Ok false =>
          (succeeded [("Error", "Sharing is not available on this device.")] st,
           None)
      | (android | ios), Throw error =>
          (succeeded [("Error", "Failed to save PDF: " +:+ message w error)] st,
           None)
      | other, Ok false => (succeeded [] st, None)
      | other, Throw error => (failed w error st, None)
      end
  | Sharing uri =>
      match Platform_OS w with
      | android =>
          match shareAsync w uri (Some "Save PDF") with
          | Ok _ => (succeeded [] st, None)
          | Throw error =>
              (succeeded [("Error", "Failed to save PDF: " +:+ message w error)] st,
               None)
          end
      | ios =>
          match shareAsync w uri (Some "Save PDF to Files") with
          | Ok _ => (succeeded [] st, None)
          | Throw error =>
              (succeeded [("Error", "Failed to save PDF: " +:+ message w error)] st,
               None)
          end
      | other =>
          match shareAsync w uri None with
          | Ok _ => (succeeded [] st, None)
          | Throw error => (failed w error st, None)
          end
      end
  end.

(** A run driven to its end. *)
Fixpoint drive (w : World) (fuel : nat) (s : option stage) (st : App) : App :=
  match s, fuel with
  | None, _ => st
  | Some _, O => st
  | Some s, S fuel => let '(st, s) := resume w s st in drive w fuel s st
  end.

Definition outcome (w : World) (s : stage) (st : App) : App :=
  drive w 4 (Some s) st.

(** The number of [await]s a suspended run still has before it. *)
Definition remaining (s : option stage) : nat :=
  match s with
  | Some (Encoding _) => 4
  | Some (Rendering _) => 3
  | Some (Saving _) => 2
  | Some (Sharing _) => 1
  | None => 0
  end.

(** The "Generate PDF" button (lines 413-431): rendered when there are
    images, and disabled while [isGenerating]. *)
Definition onPress_generatePDF (st : App) : App * option stage :=
  if (0 <? length (images st))%nat && negb (isGenerating st)
  then generatePDF st
  else (st, None).

(** ** The component and its runs in flight *)

Record System : Type := {
  app : App;
  runs : list stage;
}.

Inductive action : Type :=
  | Press_generatePDF
  | Settle (k : nat) (w : World)
  | Set_images (newImages : array img).

Definition step (a : action) (s : System) : System :=
  match a with
  | Press_generatePDF =>
      let '(st, r) := onPress_generatePDF (app s) in
      {| app := st; runs := runs s ++ option_list r |}
  | Settle k w =>
      match runs s !! k with
      | None => s
      | Some r =>
          let '(st, r') := resume w r (app s) in
          {| app := st; runs := take k (runs s) ++ option_list r' ++ drop (S k) (runs s) |}
      end
  | Set_images newImages =>
      {| app := setImages newImages (app s); runs := runs s |}
  end.

Definition initial : System :=
  {| app := {| images := []; isGenerating := false; alerts := [] |}; runs := [] |}.

Definition run (actions : list action) (s : System) : System :=
  foldl (λ s a, step a s) s actions.

(** At most one run is in flight, and the generation flag is set
    exactly while one is. *)
Definition single_run (s : System) : Prop :=
  (length (runs s) ≤ 1)%nat ∧ (isGenerating (app s) = true ↔ runs s ≠ []).

(** ** Picking images (lines 55-93)

    What one call of [pickImages] gets back from outside: whether the
    platform is the web, the permission status, the picker's result, and
    the clock reading [Date.now()] in the callback of line 82 for each
    index.  ([other] in a [World] stands for the web and for any platform
    that is neither Android nor iOS.) *)

Module Asset.
Record t : Type := { uri : string; width : number; height : number }.
End Asset.

Record ImagePickerResult : Type := {
  canceled : bool;
  assets : option (list Asset.t);
}.

Record Picker : Type := {
  OS_is_web : bool;
  requestMediaLibraryPermissionsAsync : result string;
  launchImageLibraryAsync : result ImagePickerResult;
  Date_now : nat → N;
}.

(** Lines 55-67: the state with the alert it may raise, and the answer. *)
Definition requestPermissions (p : Picker) (st : App) : result (App * bool) :=
  if negb (OS_is_web p) then
    match requestMediaLibraryPermissionsAsync p with
    | Throw e => Throw e
    | Ok status =>
        if negb (String.eqb status "granted") then
          Ok (Alert_alert "Permission Required"
                "Sorry, we need camera roll permissions to select images!" st,
              false)
        else Ok (st, true)
    end
  else Ok (st, true).

(** Lines 82-87. *)
Definition newImages (p : Picker) (assets : list Asset.t) : list img :=
  imap (λ index asset,
    {| id := pretty (Date_now p index) +:+ "-" +:+ pretty index;
       uri := Asset.uri asset;
       width := Asset.width asset;
       height := Asset.height asset |}) assets.

(** Lines 69-93, on the state in which the updater of line 88 runs.  The
    permission request is awaited outside the [try]: its rejection is the
    rejection of the call. *)
Definition pickImages (w : World) (p : Picker) (st : App) : result App :=
  match requestPermissions p st with
  | Throw e => Throw e
  | Ok (st, false) => Ok st
  | Ok (st, true) =>
      match launchImageLibraryAsync p with
      | Throw error =>
          Ok (Alert_alert "Error" ("Failed to pick images: " +:+ message w error) st)
      | Ok result =>
          match canceled result, assets result with
          | false, Some assets =>
              Ok (setImages (images st ++ dense (newImages p assets))%list st)
          | _, _ => Ok st
          end
      end
  end.

(** The string has no minus sign. *)
Fixpoint no_dash (s : string) : Prop :=
  match s with
  | EmptyString => True
  | String c s' => c ≠ "-"%char ∧ no_dash s'
  end.

(** ** The preview (lines 339-341)

    The height that the render computes for the [style] of a preview
    image, from a nominal width of 300.  The style sheet (lines 517-520)
    sets the width to 100% and caps the height at 400; the layout that
    results is React Native's and is not modelled. *)

Definition containerWidth : number := Fin 300.

Definition previewHeight (item : img) : number :=
  let aspectRatio := aspectRatio item in
  js_div containerWidth aspectRatio.

(** ** Sample data *)

Definition photo (w h : Q) : img :=
  {| id := "0-0"; uri := "file:///photo.jpg"; width := Fin w; height := Fin h |}.

Definition sample_world : World :=
  {| readAsStringAsync := λ _, Ok "AAAA";
     printToFileAsync := λ _, Ok "file:///out.pdf";
     Platform_OS := android;
     isAvailableAsync := Ok true;
     shareAsync := λ _ _, Ok ();
     settled := [];
     TypeError_message := λ p, "Cannot read property '" +:+ p +:+ "' of undefined" |}.

(** A world in which the file at [bad] cannot be read. *)
Definition unreadable (bad : string) : World :=
  {| readAsStringAsync := λ uri,
       if String.eqb uri bad then Throw (Error "File is not readable") else Ok "AAAA";
     printToFileAsync := printToFileAsync sample_world;
     Platform_OS := Platform_OS sample_world;
     isAvailableAsync := isAvailableAsync sample_world;
     shareAsync := shareAsync sample_world;
     settled := settled sample_world;
     TypeError_message := TypeError_message sample_world |}.

Definition scan (index : nat) (name : string) (w h : Q) : img :=
  {| id := "1700000000000-" +:+ pretty index; uri := name;
     width := Fin w; height := Fin h |}.

Definition idle (l : list img) : App :=
  {| images := dense l; isGenerating := false; alerts := [] |}.

Definition generating (l : list img) : App :=
  {| images := dense l; isGenerating := true; alerts := [] |}.

(** A world in which the second read completes first. *)
Definition reversed_world : World :=
  {| readAsStringAsync := λ uri0, Ok ("Zm9v" +:+ uri0);
     printToFileAsync := printToFileAsync sample_world;
     Platform_OS := ios;
     isAvailableAsync := isAvailableAsync sample_world;
     shareAsync := shareAsync sample_world;
     settled := [1; 0]%nat;
     TypeError_message := TypeError_message sample_world |}.

(** A world in which the printer fails. *)
Definition no_printer : World :=
  {| readAsStringAsync := readAsStringAsync sample_world;
     printToFileAsync := λ _, Throw (Error "Printing did not complete");
     Platform_OS := Platform_OS sample_world;
     isAvailableAsync := isAvailableAsync sample_world;
     shareAsync := shareAsync sample_world;
     settled := settled sample_world;
     TypeError_message := TypeError_message sample_world |}.

(** A device of the given platform on which sharing fails. *)
Definition no_sharing (os : platform) : World :=
  {| readAsStringAsync := readAsStringAsync sample_world;
     printToFileAsync := printToFileAsync sample_world;
     Platform_OS := os;
     isAvailableAsync := Ok true;
     shareAsync := λ _ _, Throw (Error "User did not share");
     settled := settled sample_world;
     TypeError_message := TypeError_message sample_world |}.

(** A picker that returns the given assets at clock reading [now]. *)
Definition picked (now : N) (chosen : list Asset.t) : Picker :=
  {| OS_is_web := false;
     requestMediaLibraryPermissionsAsync := Ok "granted";
     launchImageLibraryAsync := Ok {| canceled := false; assets := Some chosen |};
     Date_now := λ _, now |}.

Definition asset (name : string) (w h : Q) : Asset.t :=
  {| Asset.uri := name; Asset.width := Fin w; Asset.height := Fin h |}.

(** * Properties *)

(** ** The page geometry *)

Example fit_landscape :
  fit (photo 800 600) =
  {| imageWidth := Fin 794; imageHeight := Fin (476400 # 800);
     leftPos := Fin (0 # 2); topPos := Fin (422000 # 1600) |}.
Proof. vm_compute. reflexivity. Qed.

Section Geometry.
Local Open Scope Q_scope.

Lemma Qzero_false q : ¬ q == 0 → Qzero q = false.
Proof.
  intros Hq. unfold Qzero. destruct (Qeq_bool q 0) eqn:E; [|done].
  apply Qeq_bool_eq in E. contradiction.
Qed.

Lemma Qzero_true q : q == 0 → Qzero q = true.
Proof. intros Hq. by apply Qeq_eq_bool. Qed.

Lemma Qle_bool_false x y : Qle_bool x y = false ↔ y < x.
Proof.
  pose proof (Qle_bool_iff x y) as Hb. split.
  - intros E. apply Qnot_le_lt. intros Hle. apply Hb in Hle. congruence.
  - intros Hlt. destruct (Qle_bool x y); [|done].
    exfalso. apply (Qlt_not_le _ _ Hlt). by apply Hb.
Qed.

Lemma Qpos_true q : 0 < q → Qpos q = true.
Proof. intros Hq. unfold Qpos. apply Qle_bool_false in Hq. by rewrite Hq. Qed.

Lemma ratio_pos w h : 0 < w → 0 < h → 0 < w / h.
Proof. intros Hw Hh. apply Qlt_shift_div_l; lra. Qed.

(** On positive dimensions the geometry is one of the two candidates,
    chosen by the test of line 170. *)
Lemma fit_candidates (i : img) (w h : Q) :
  width i = Fin w → height i = Fin h → 0 < w → 0 < h →
  (794 / (w / h) <= 1123 ∧
   fit i = {| imageWidth := Fin 794;
              imageHeight := Fin (794 / (w / h));
              leftPos := Fin ((794 - 794) / 2);
              topPos := Fin ((1123 - 794 / (w / h)) / 2) |})
  ∨
  (1123 < 794 / (w / h) ∧
   fit i = {| imageWidth := Fin (1123 * (w / h));
              imageHeight := Fin 1123;
              leftPos := Fin ((794 - 1123 * (w / h)) / 2);
              topPos := Fin ((1123 - 1123) / 2) |}).
Proof.
  intros Hw Hh Hwpos Hhpos.
  pose proof (ratio_pos w h Hwpos Hhpos) as Hr.
  unfold fit, aspectRatio. rewrite Hw, Hh. cbn [js_div].
  rewrite (Qzero_false h) by lra.
  unfold maxImageWidth, maxImageHeight, pageWidth, pageHeight. cbn [js_div].
  rewrite (Qzero_false (w / h)) by lra. cbn [js_gt].
  destruct (Qle_bool (794 / (w / h)) 1123) eqn:E; cbn [negb].
  - left. split; [by apply Qle_bool_iff|]. reflexivity.
  - right. split; [by apply Qle_bool_false|]. reflexivity.
Qed.

Lemma div_gt_mul_lt (a b r : Q) : 0 < r → b < a / r → b * r < a.
Proof.
  intros Hr H. apply (Qmult_lt_r _ _ r Hr) in H.
  assert (a / r * r == a) as E by (field; lra).
  by rewrite E in H.
Qed.

(** C1.  For an image of positive width and height the render size
    stays within the 794 x 1123 page, has the aspect ratio of the image,
    and is one of the two candidates: the width is the page width, or
    the height is the page height. *)
Theorem fit_within_page (i : img) (w h : Q) :
  width i = Fin w → height i = Fin h → 0 < w → 0 < h →
  ∃ renderW renderH : Q,
    imageWidth (fit i) = Fin renderW ∧ imageHeight (fit i) = Fin renderH ∧
    0 < renderW ∧ 0 < renderH ∧
    renderW <= 794 ∧ renderH <= 1123 ∧
    renderW / renderH == w / h ∧
    ((renderW == 794 ∧ renderH == 794 / (w / h)) ∨
     (renderH == 1123 ∧ renderW == 1123 * (w / h))).
Proof.
  intros Hw Hh Hwpos Hhpos.
  pose proof (ratio_pos w h Hwpos Hhpos) as Hr.
  destruct (fit_candidates i w h Hw Hh Hwpos Hhpos) as [[Hle ->]|[Hgt ->]]; cbn.
  - exists 794, (794 / (w / h)).
    assert (0 < 794 / (w / h)) by (apply Qlt_shift_div_l; lra).
    split_and!; [reflexivity | reflexivity | lra | lra | lra | lra | | ].
    + field. split; lra.
    + left. split; reflexivity.
  - exists (1123 * (w / h)), 1123.
    pose proof (div_gt_mul_lt _ _ _ Hr Hgt).
    split_and!; [reflexivity | reflexivity | | lra | lra | lra | | ].
    + apply Qmult_lt_0_compat; lra.
    + field. lra.
    + right. split; reflexivity.
Qed.

Lemma fit_within_page_witness :
  width (photo 800 600) = Fin 800 ∧ height (photo 800 600) = Fin 600 ∧
  0 < 800 ∧ 0 < 600 ∧
  ∃ renderW renderH : Q,
    imageWidth (fit (photo 800 600)) = Fin renderW ∧
    imageHeight (fit (photo 800 600)) = Fin renderH ∧
    0 < renderW ∧ 0 < renderH ∧
    renderW <= 794 ∧ renderH <= 1123 ∧
    renderW / renderH == 800 / 600 ∧
    ((renderW == 794 ∧ renderH == 794 / (800 / 600)) ∨
     (renderH == 1123 ∧ renderW == 1123 * (800 / 600))).
Proof.
  split; [reflexivity|]. split; [reflexivity|].
  split; [reflexivity|]. split; [reflexivity|].
  apply (fit_within_page (photo 800 600) 800 600); reflexivity.
Defined.





End Geometry.

(** ** Promise.all *)

Section Promises.
Context {A : Type}.
Implicit Types (promises : list (result A)) (order : list nat).

Lemma first_rejection_Some order promises e :
  first_rejection order promises = Some e →
  ∃ k, k ∈ order ∧ promises !! k = Some (Throw e).
Proof.
  induction order as [|k order IH]; cbn; [done|].
  destruct (promises !! k) as [[v|e']|] eqn:E; intros H.
  - destruct (IH H) as (k' & ? & ?). exists k'. split; [by right|done].
  - injection H as ->. exists k. split; [by left|done].
  - destruct (IH H) as (k' & ? & ?). exists k'. split; [by right|done].
Qed.

Lemma first_rejection_None order promises k e :
  first_rejection order promises = None → k ∈ order →
  promises !! k ≠ Some (Throw e).
Proof.
  induction order as [|k' order IH]; cbn; intros H Hin.
  - by apply elem_of_nil in Hin.
  - apply elem_of_cons in Hin as [->|Hin].
    + destruct (promises !! k') as [[v|e']|]; done.
    + destruct (promises !! k') as [[v|e']|]; try done; by apply IH.
Qed.

Lemma fulfilled_Ok (vs : list A) : fulfilled (Ok <$> vs) = vs.
Proof. induction vs as [|v vs IH]; cbn; [done|]. by f_equal. Qed.

(** A rejected promise rejects the whole: with the reason of one of
    the rejected promises. *)
Lemma Promise_all_rejected order promises k e :
  promises !! k = Some (Throw e) →
  ∃ k' e', promises !! k' = Some (Throw e') ∧
           Promise_all order promises = Throw e'.
Proof.
  intros Hk. unfold Promise_all.
  destruct (first_rejection _ promises) as [e'|] eqn:E.
  - apply first_rejection_Some in E as (k' & _ & Hk'). by exists k', e'.
  - exfalso. eapply first_rejection_None; [exact E| |exact Hk].
    apply elem_of_app. right. apply elem_of_seq.
    apply lookup_lt_Some in Hk. lia.
Qed.

(** Promises that are all fulfilled give their values, in order. *)
Lemma Promise_all_fulfilled order (vs : list A) :
  Promise_all order (Ok <$> vs) = Ok vs.
Proof.
  unfold Promise_all.
  destruct (first_rejection _ (Ok <$> vs)) as [e'|] eqn:E.
  - apply first_rejection_Some in E as (k' & _ & Hk').
    rewrite list_lookup_fmap in Hk'. by destruct (vs !! k').
  - by rewrite fulfilled_Ok.
Qed.

Lemma Promise_all_Ok_inv order promises (vs : list A) :
  Promise_all order promises = Ok vs → promises = Ok <$> vs.
Proof.
  unfold Promise_all.
  destruct (first_rejection _ promises) as [e'|] eqn:E; [done|].
  intros [= <-].
  assert (∀ k e, promises !! k ≠ Some (Throw e)) as Hnone.
  { intros k e Hk. eapply first_rejection_None; [exact E| |exact Hk].
    apply elem_of_app. right. apply elem_of_seq.
    apply lookup_lt_Some in Hk. lia. }
  clear E. induction promises as [|[v|e] promises IH]; cbn.
  - done.
  - f_equal. apply IH. intros k e. apply (Hnone (S k) e).
  - by destruct (Hnone 0%nat e).
Qed.
End Promises.

(** ** The run of generatePDF *)

Example mimeType_by_name :
  mimeType "file:///DCIM/IMG_1.PNG" = "image/png" ∧
  mimeType "file:///DCIM/IMG_2.jpeg" = "image/jpeg" ∧
  mimeType "file:///png-exports/IMG_3.jpg" = "image/png".
Proof. repeat split. Qed.

Example run_sample :
  alerts (outcome sample_world (Encoding (dense [photo 800 600]))
            {| images := dense [photo 800 600]; isGenerating := true; alerts := [] |})
  = [("Success", "PDF generated successfully!")].
Proof. vm_compute. reflexivity. Qed.

Lemma resume_remaining (w : World) (s : stage) (st : App) :
  (remaining (resume w s st).2 < remaining (Some s))%nat.
Proof.
  destruct s; cbn;
    repeat (match goal with
            | |- context [match ?x with _ => _ end] => destruct x; cbn
            end); lia.
Qed.

(** Fuel beyond the remaining [await]s changes nothing: [outcome] is the
    state in which the run has ended. *)
Lemma drive_fuel (w : World) (fuel fuel' : nat) (s : option stage) (st : App) :
  (remaining s ≤ fuel)%nat → (remaining s ≤ fuel')%nat →
  drive w fuel s st = drive w fuel' s st.
Proof.
  revert fuel' s st. induction fuel as [|fuel IH]; intros fuel' s st H H'.
  - destruct s as [[]|]; cbn in *; try lia. by destruct fuel'.
  - destruct s as [s|]; [|by destruct fuel'].
    destruct fuel' as [|fuel']; [destruct s; cbn in *; lia|].
    cbn. pose proof (resume_remaining w s st) as Hlt.
    destruct (resume w s st) as [st' s']. cbn [snd] in Hlt. apply IH; lia.
Qed.

Lemma readImage_lookup (w : World) (images : array img) (k : nat) :
  imap (readImage w) images !! k = readImage w k <$> images !! k.
Proof. apply list_lookup_imap. Qed.

Lemma readImage_Throw (w : World) (k : nat) (x : option img) (e : error) :
  readImage w k x = Throw e →
  ∃ cause,
    e = Error ("Failed to process image " +:+ pretty (k + 1)%nat +:+ ": "
               +:+ message w cause) ∧
    match x with
    | Some i => readAsStringAsync w (uri i) = Throw cause
    | None => cause = TypeError "uri"
    end.
Proof.
  unfold readImage. destruct x as [i|].
  - destruct (readAsStringAsync w (uri i)) as [b|cause]; [done|].
    intros [= <-]. by exists cause.
  - intros [= <-]. by exists (TypeError "uri").
Qed.

Lemma readImage_Ok (w : World) (k : nat) (i : img) (base64 : string) :
  readAsStringAsync w (uri i) = Ok base64 →
  readImage w k (Some i) =
    Ok {| image := i;
          dataUri := "data:" +:+ mimeType (uri i) +:+ ";base64," +:+ base64 |}.
Proof. intros H. unfold readImage. by rewrite H. Qed.

(** C6.  If the read of any one image fails, the run ends at the
    [await] of the reads: nothing is composed or printed, the error alert
    names the position (from 1) of an image whose read failed and that
    read's message, and the generation flag is cleared. *)
Theorem encoding_failure_fails_run
    (w : World) (snapshot : array img) (st : App) (k : nat) (i : img) (e : error) :
  snapshot !! k = Some (Some i) →
  readAsStringAsync w (uri i) = Throw e →
  ∃ (k' : nat) (cause : error),
    match snapshot !! k' with
    | Some (Some i') => readAsStringAsync w (uri i') = Throw cause
    | Some None => cause = TypeError "uri"
    | None => False
    end ∧
    resume w (Encoding snapshot) st =
      ({| images := images st;
          isGenerating := false;
          alerts := alerts st ++
            [("Error", "Failed to generate PDF: " +:+ "Failed to process image "
                       +:+ pretty (k' + 1)%nat +:+ ": " +:+ message w cause)] |},
       None) ∧
    outcome w (Encoding snapshot) st = (resume w (Encoding snapshot) st).1.
Proof.
  intros Hk Hread.
  assert (∃ e0, imap (readImage w) snapshot !! k = Some (Throw e0)) as [e0 Hp].
  { rewrite readImage_lookup, Hk. cbn. unfold readImage. rewrite Hread. eauto. }
  destruct (Promise_all_rejected (settled w) _ _ _ Hp) as (k' & e' & Hk' & Hall).
  rewrite readImage_lookup in Hk'.
  destruct (snapshot !! k') as [x|] eqn:Ex; [|done].
  cbn in Hk'. injection Hk' as Hk'.
  apply readImage_Throw in Hk' as (cause & -> & Hcause).
  exists k', cause. rewrite Ex. split; [by destruct x|].
  unfold outcome. cbn. rewrite Hall. by cbn.
Qed.

Lemma encoding_failure_fails_run_witness :
  let w := unreadable "b.jpg" in
  let snapshot := dense [scan 0 "a.jpg" 800 600; scan 1 "b.jpg" 600 800] in
  let st := generating [scan 0 "a.jpg" 800 600; scan 1 "b.jpg" 600 800] in
  snapshot !! 1%nat = Some (Some (scan 1 "b.jpg" 600 800)) ∧
  readAsStringAsync w "b.jpg" = Throw (Error "File is not readable") ∧
  ∃ (k' : nat) (cause : error),
    match snapshot !! k' with
    | Some (Some i') => readAsStringAsync w (uri i') = Throw cause
    | Some None => cause = TypeError "uri"
    | None => False
    end ∧
    resume w (Encoding snapshot) st =
      ({| images := images st;
          isGenerating := false;
          alerts := alerts st ++
            [("Error", "Failed to generate PDF: " +:+ "Failed to process image "
                       +:+ pretty (k' + 1)%nat +:+ ": " +:+ message w cause)] |},
       None) ∧
    outcome w (Encoding snapshot) st = (resume w (Encoding snapshot) st).1.
Proof.
  intros w snapshot st.
  split; [reflexivity|]. split; [reflexivity|].
  apply (encoding_failure_fails_run w snapshot st 1 (scan 1 "b.jpg" 600 800)
           (Error "File is not readable")); reflexivity.
Defined.

Example unreadable_second_image :
  alerts (outcome (unreadable "b.jpg")
            (Encoding (dense [scan 0 "a.jpg" 800 600; scan 1 "b.jpg" 600 800]))
            (generating [scan 0 "a.jpg" 800 600; scan 1 "b.jpg" 600 800]))
  = [("Error", "Failed to generate PDF: Failed to process image 2: File is not readable")].
Proof. vm_compute. reflexivity. Qed.

(** C7.  With no image selected, a call of [generatePDF] shows the
    "No Images" alert and returns: no run is started, no error alert is
    raised, and the generation flag and the list are left as they
    were. *)
Theorem generatePDF_empty (st : App) :
  images st = [] →
  generatePDF st =
    ({| images := images st; isGenerating := isGenerating st;
        alerts := alerts st ++
          [("No Images", "Please select at least one image to convert to PDF.")] |},
     None).
Proof. intros H. unfold generatePDF, Alert_alert. rewrite H. reflexivity. Qed.

Lemma generatePDF_empty_witness :
  images (idle []) = [] ∧
  generatePDF (idle []) =
    ({| images := images (idle []); isGenerating := isGenerating (idle []);
        alerts := alerts (idle []) ++
          [("No Images", "Please select at least one image to convert to PDF.")] |},
     None).
Proof. split; [reflexivity|]. apply (generatePDF_empty (idle [])). reflexivity. Defined.

(** ** Images with a zero dimension *)

Section Degenerate.
Local Open Scope Q_scope.

(** Zero height: the ratio is [Infinity], the width-constrained height
    is 0. *)
Lemma fit_zero_height (i : img) (q z : Q) :
  width i = Fin q → height i = Fin z → 0 < q → z == 0 →
  fit i = {| imageWidth := Fin 794; imageHeight := Fin 0;
             leftPos := Fin ((794 - 794) / 2);
             topPos := Fin ((1123 - 0) / 2) |}.
Proof.
  intros Hw Hh Hq Hz. unfold fit, aspectRatio. rewrite Hw, Hh. cbn [js_div].
  rewrite (Qzero_true z Hz), (Qzero_false q), (Qpos_true q Hq) by lra.
  reflexivity.
Qed.

(** Zero width: the ratio is 0, the width-constrained height is
    [Infinity], and the height-constrained width is 0. *)
Lemma fit_zero_width (i : img) (q z : Q) :
  width i = Fin z → height i = Fin q → 0 < q → z == 0 →
  ∃ renderW, renderW == 0 ∧
    fit i = {| imageWidth := Fin renderW; imageHeight := Fin 1123;
               leftPos := Fin ((794 - renderW) / 2);
               topPos := Fin ((1123 - 1123) / 2) |}.
Proof.
  intros Hw Hh Hq Hz. exists (1123 * (z / q)). split.
  { rewrite Hz. field. lra. }
  unfold fit, aspectRatio. rewrite Hw, Hh. cbn [js_div].
  rewrite (Qzero_false q) by lra.
  unfold maxImageWidth, maxImageHeight, pageWidth, pageHeight. cbn [js_div].
  rewrite (Qzero_true (z / q)) by (rewrite Hz; field; lra).
  reflexivity.
Qed.

(** Zero width and height: the ratio is [NaN], and so are the height
    and the vertical offset. *)
Lemma fit_zero_both (i : img) (z z' : Q) :
  width i = Fin z → height i = Fin z' → z == 0 → z' == 0 →
  fit i = {| imageWidth := Fin 794; imageHeight := NaN;
             leftPos := Fin ((794 - 794) / 2); topPos := NaN |}.
Proof.
  intros Hw Hh Hz Hz'. unfold fit, aspectRatio. rewrite Hw, Hh. cbn [js_div].
  rewrite (Qzero_true z Hz), (Qzero_true z' Hz'). reflexivity.
Qed.
End Degenerate.

Lemma imageHTML_lookup (imagesWithData : list imageWithData) (index : nat) :
  imageHTML imagesWithData !! index =
  (λ img,
     {| pageBreak :=
          if (Z.of_nat index <? Z.of_nat (length imagesWithData) - 1)%Z
          then "page-break-after: always;" else "";
        src := dataUri img;
        box := fit (image img) |}) <$> imagesWithData !! index.
Proof. unfold imageHTML. by rewrite list_lookup_imap. Qed.

Lemma imageHTML_box (imagesWithData : list imageWithData) :
  box <$> imageHTML imagesWithData = fit <$> (image <$> imagesWithData).
Proof.
  apply list_eq. intros k.
  rewrite !list_lookup_fmap, imageHTML_lookup.
  by destruct (imagesWithData !! k).
Qed.

Lemma reads_fulfilled (w : World) (l : list img) (n : nat) :
  (∀ i, i ∈ l → ∃ base64, readAsStringAsync w (uri i) = Ok base64) →
  ∃ imagesWithData,
    image <$> imagesWithData = l ∧
    imap (λ k, readImage w (n + k)) (dense l) = Ok <$> imagesWithData.
Proof.
  revert n. induction l as [|i l IH]; intros n Hl.
  - by exists [].
  - destruct (Hl i) as [base64 Hi]; [by left|].
    destruct (IH (S n)) as (ds & Hds & Hmap).
    { intros i' Hi'. apply Hl. by right. }
    exists ({| image := i;
               dataUri := "data:" +:+ mimeType (uri i) +:+ ";base64," +:+ base64 |}
            :: ds).
    cbn. split; [by rewrite Hds|].
    rewrite (readImage_Ok _ _ _ _ Hi). f_equal.
    rewrite <- Hmap. apply imap_ext. intros k x _. cbn. f_equal. lia.
Qed.

(** C2, as the code has it.  Nothing validates the dimensions: when
    every image is read the run goes on from the reads to the printing
    with one page per image, each holding the geometry computed from that
    image, zero dimensions included.  With a zero height and a positive
    width that geometry is 794 x 0 at (0, 561.5); with a zero width and a
    positive height it is 0 x 1123 at (397, 0). *)
Theorem zero_dimensions_accepted (w : World) (l : list img) (st : App) :
  (∀ i, i ∈ l → ∃ base64, readAsStringAsync w (uri i) = Ok base64) →
  ∃ imagesWithData : list imageWithData,
    image <$> imagesWithData = l ∧
    resume w (Encoding (dense l)) st
      = (st, Some (Rendering (imageHTML imagesWithData))) ∧
    box <$> imageHTML imagesWithData = fit <$> l ∧
    ∀ (i : img) (q z : Q), i ∈ l → (0 < q)%Q → (z == 0)%Q →
      (width i = Fin q → height i = Fin z →
       fit i = {| imageWidth := Fin 794; imageHeight := Fin 0;
                  leftPos := Fin ((794 - 794) / 2);
                  topPos := Fin ((1123 - 0) / 2) |}) ∧
      (width i = Fin z → height i = Fin q →
       ∃ renderW : Q, (renderW == 0)%Q ∧
         fit i = {| imageWidth := Fin renderW; imageHeight := Fin 1123;
                    leftPos := Fin ((794 - renderW) / 2);
                    topPos := Fin ((1123 - 1123) / 2) |}).
Proof.
  intros Hl.
  destruct (reads_fulfilled w l 0 Hl) as (ds & Hds & Hmap).
  exists ds. split_and!.
  - done.
  - unfold resume.
    assert (imap (readImage w) (dense l) = Ok <$> ds) as -> by exact Hmap.
    by rewrite Promise_all_fulfilled.
  - by rewrite imageHTML_box, Hds.
  - intros i q z _ Hq Hz. split.
    + intros Hw Hh. by apply (fit_zero_height i q z).
    + intros Hw Hh. by apply (fit_zero_width i q z).
Qed.

Lemma zero_dimensions_accepted_witness :
  let l := [scan 0 "a.jpg" 800 0] in
  (∀ i, i ∈ l → ∃ base64, readAsStringAsync sample_world (uri i) = Ok base64) ∧
  ∃ imagesWithData : list imageWithData,
    image <$> imagesWithData = l ∧
    resume sample_world (Encoding (dense l)) (generating l)
      = (generating l, Some (Rendering (imageHTML imagesWithData))) ∧
    box <$> imageHTML imagesWithData = fit <$> l ∧
    ∀ (i : img) (q z : Q), i ∈ l → (0 < q)%Q → (z == 0)%Q →
      (width i = Fin q → height i = Fin z →
       fit i = {| imageWidth := Fin 794; imageHeight := Fin 0;
                  leftPos := Fin ((794 - 794) / 2);
                  topPos := Fin ((1123 - 0) / 2) |}) ∧
      (width i = Fin z → height i = Fin q →
       ∃ renderW : Q, (renderW == 0)%Q ∧
         fit i = {| imageWidth := Fin renderW; imageHeight := Fin 1123;
                    leftPos := Fin ((794 - renderW) / 2);
                    topPos := Fin ((1123 - 1123) / 2) |}).
Proof.
  intros l.
  assert (∀ i, i ∈ l → ∃ base64, readAsStringAsync sample_world (uri i) = Ok base64)
    as Hl by (intros i _; exists "AAAA"; reflexivity).
  split; [exact Hl|].
  exact (zero_dimensions_accepted sample_world l (generating l) Hl).
Defined.

(** C2, as the spec has it, fails: a run over one image of height 0 is
    not ended by an error at the reads; it goes on to the printing. *)
Lemma zero_height_reaches_rendering :
  ¬ (∀ (w : World) (snapshot : array img) (st : App) (k : nat) (i : img),
       snapshot !! k = Some (Some i) →
       height i = Fin 0 ∨ width i = Fin 0 →
       ∃ error, resume w (Encoding snapshot) st = (failed w error st, None)).
Proof.
  intros H.
  destruct (H sample_world (dense [scan 0 "a.jpg" 800 0])
              (generating [scan 0 "a.jpg" 800 0]) 0%nat (scan 0 "a.jpg" 800 0))
    as [error He]; [reflexivity | by left |].
  vm_compute in He. discriminate He.
Qed.

Example zero_height_page :
  resume sample_world (Encoding (dense [scan 0 "a.jpg" 800 0]))
    (generating [scan 0 "a.jpg" 800 0])
  = (generating [scan 0 "a.jpg" 800 0],
     Some (Rendering
       [{| pageBreak := ""; src := "data:image/jpeg;base64,AAAA";
           box := {| imageWidth := Fin 794; imageHeight := Fin 0;
                     leftPos := Fin (0 # 2); topPos := Fin (1123 # 2) |} |}])).
Proof. vm_compute. reflexivity. Qed.

Example zero_by_zero_page :
  fit (scan 0 "a.jpg" 0 0)
  = {| imageWidth := Fin 794; imageHeight := NaN;
       leftPos := Fin (0 # 2); topPos := NaN |}.
Proof. vm_compute. reflexivity. Qed.

(** ** Reordering *)

Section Reordering.
Context {A : Type}.
Local Open Scope list_scope.
Implicit Types (images : array A) (x y : option A).

Lemma at_index_lookup images (k : nat) x :
  images !! k = Some x → at_index images (Z.of_nat k) = x.
Proof.
  intros Hk. unfold at_index.
  destruct (Z.ltb_spec (Z.of_nat k) 0); [lia|]. by rewrite Nat2Z.id, Hk.
Qed.

Lemma assign_within images (k : nat) x :
  (k < length images)%nat → assign images (Z.of_nat k) x = <[k:=x]> images.
Proof.
  intros Hk. unfold assign.
  destruct (Z.ltb_spec (Z.of_nat k) 0); [lia|]. rewrite Nat2Z.id.
  by destruct (decide _).
Qed.

(** Both handlers, away from their boundary, exchange two neighbours. *)
Lemma moveImageUp_swap images (j : nat) x y :
  images !! j = Some x → images !! S j = Some y →
  moveImageUp images (Z.of_nat (S j)) = <[S j:=x]> (<[j:=y]> images).
Proof.
  intros Hx Hy. unfold moveImageUp.
  destruct (Z.eqb_spec (Z.of_nat (S j)) 0); [lia|].
  replace (Z.of_nat (S j) - 1)%Z with (Z.of_nat j) by lia.
  rewrite (at_index_lookup _ _ _ Hx), (at_index_lookup _ _ _ Hy).
  apply lookup_lt_Some in Hx, Hy.
  rewrite (assign_within images j) by done.
  by rewrite assign_within by (by rewrite length_insert).
Qed.

Lemma moveImageDown_swap images (j : nat) x y :
  images !! j = Some x → images !! S j = Some y →
  moveImageDown images (Z.of_nat j) = <[S j:=x]> (<[j:=y]> images).
Proof.
  intros Hx Hy. unfold moveImageDown.
  pose proof (lookup_lt_Some _ _ _ Hx). pose proof (lookup_lt_Some _ _ _ Hy).
  destruct (Z.eqb_spec (Z.of_nat j) (Z.of_nat (length images) - 1)); [lia|].
  replace (Z.of_nat j + 1)%Z with (Z.of_nat (S j)) by lia.
  rewrite (at_index_lookup _ _ _ Hx), (at_index_lookup _ _ _ Hy).
  rewrite (assign_within images j) by done.
  by rewrite assign_within by (by rewrite length_insert).
Qed.

Lemma swap_length images (j : nat) x y :
  length (<[S j:=x]> (<[j:=y]> images)) = length images.
Proof. by rewrite !length_insert. Qed.

Lemma swap_lookup images (j : nat) x y :
  images !! j = Some x → images !! S j = Some y →
  let swapped := <[S j:=x]> (<[j:=y]> images) in
  swapped !! j = Some y ∧ swapped !! S j = Some x ∧
  ∀ k, k ≠ j → k ≠ S j → swapped !! k = images !! k.
Proof.
  intros Hx Hy swapped. unfold swapped.
  apply lookup_lt_Some in Hx, Hy. split_and!.
  - rewrite list_lookup_insert_ne by lia. by apply list_lookup_insert_eq.
  - apply list_lookup_insert_eq. by rewrite length_insert.
  - intros k Hj HSj. by rewrite !list_lookup_insert_ne by lia.
Qed.

Lemma swap_swap images (j : nat) x y :
  images !! j = Some x → images !! S j = Some y →
  <[S j:=y]> (<[j:=x]> (<[S j:=x]> (<[j:=y]> images))) = images.
Proof.
  intros Hx Hy. apply list_eq. intros k.
  destruct (decide (k = S j)) as [->|HSj].
  - rewrite list_lookup_insert_eq by (rewrite !length_insert;
                                      by apply lookup_lt_Some in Hy).
    done.
  - rewrite (list_lookup_insert_ne _ (S j)) by done.
    destruct (decide (k = j)) as [->|Hj].
    + rewrite list_lookup_insert_eq by (rewrite !length_insert;
                                        by apply lookup_lt_Some in Hx).
      done.
    + by rewrite !list_lookup_insert_ne by done.
Qed.

Lemma neighbours_split images (j : nat) x y :
  images !! j = Some x → images !! S j = Some y →
  ∃ before after, images = before ++ x :: y :: after ∧ length before = j.
Proof.
  intros Hx Hy. exists (take j images), (drop (S (S j)) images). split.
  - rewrite <- (take_drop_middle _ _ _ Hx) at 1. do 2 f_equal.
    rewrite <- (take_drop_middle (drop (S j) images) 0 y).
    + by rewrite drop_drop, Nat.add_1_r.
    + by rewrite lookup_drop, Nat.add_0_r.
  - apply lookup_lt_Some in Hx. rewrite length_take. lia.
Qed.

Lemma swap_middle (before after : array A) x y :
  <[S (length before):=x]> (<[length before:=y]> (before ++ x :: y :: after))
  = before ++ y :: x :: after.
Proof. induction before as [|z before IH]; cbn; [done|]. by f_equal. Qed.

Lemma swap_Permutation images (j : nat) x y :
  images !! j = Some x → images !! S j = Some y →
  <[S j:=x]> (<[j:=y]> images) ≡ₚ images.
Proof.
  intros Hx Hy.
  destruct (neighbours_split images j x y Hx Hy) as (before & after & -> & <-).
  rewrite swap_middle. apply Permutation_app_head, perm_swap.
Qed.
End Reordering.

(** C8.  [moveImageUp(0)] and [moveImageDown(length - 1)] return the
    list as it is.  Away from those boundaries [moveImageUp(i)] exchanges
    the entries at [i - 1] and [i], [moveImageDown(i)] those at [i] and
    [i + 1]; the other entries and the length are unchanged.  Neither
    can throw: they are total functions on arrays. *)
Theorem moveImage_boundary_and_swap {A : Type} (images : array A) (i : nat) :
  moveImageUp images 0 = images ∧
  moveImageDown images (Z.of_nat (length images) - 1) = images ∧
  ((0 < i < length images)%nat →
   let moved := moveImageUp images (Z.of_nat i) in
   length moved = length images ∧
   moved !! (i - 1)%nat = images !! i ∧
   moved !! i = images !! (i - 1)%nat ∧
   ∀ k : nat, k ≠ i → k ≠ (i - 1)%nat → moved !! k = images !! k) ∧
  ((i + 1 < length images)%nat →
   let moved := moveImageDown images (Z.of_nat i) in
   length moved = length images ∧
   moved !! i = images !! (i + 1)%nat ∧
   moved !! (i + 1)%nat = images !! i ∧
   ∀ k : nat, k ≠ i → k ≠ (i + 1)%nat → moved !! k = images !! k).
Proof.
  split_and!.
  - reflexivity.
  - unfold moveImageDown. by rewrite Z.eqb_refl.
  - intros [Hpos Hlt] moved. destruct i as [|j]; [lia|].
    destruct (lookup_lt_is_Some_2 images j) as [x Hx]; [lia|].
    destruct (lookup_lt_is_Some_2 images (S j)) as [y Hy]; [lia|].
    unfold moved. rewrite (moveImageUp_swap images j x y Hx Hy).
    replace (S j - 1)%nat with j by lia.
    destruct (swap_lookup images j x y Hx Hy) as (Hj & HSj & Hother).
    rewrite Hx, Hy. split_and!; [apply swap_length | done | done |].
    intros k ??. by apply Hother.
  - intros Hlt moved.
    destruct (lookup_lt_is_Some_2 images i) as [x Hx]; [lia|].
    destruct (lookup_lt_is_Some_2 images (S i)) as [y Hy]; [lia|].
    unfold moved. rewrite (moveImageDown_swap images i x y Hx Hy).
    replace (i + 1)%nat with (S i) by lia.
    destruct (swap_lookup images i x y Hx Hy) as (Hj & HSj & Hother).
    rewrite Hx, Hy. split_and!; [apply swap_length | done | done |].
    intros k ??. by apply Hother.
Qed.

Lemma moveImage_boundary_and_swap_witness :
  let images := dense ["a"; "b"; "c"] in
  (0 < 1 < length images)%nat ∧ (1 + 1 < length images)%nat ∧
  moveImageUp images 0 = images ∧
  moveImageDown images 2 = images ∧
  moveImageUp images 1 = dense ["b"; "a"; "c"] ∧
  moveImageDown images 1 = dense ["a"; "c"; "b"] ∧
  (let moved := moveImageUp images 1 in
   moved !! 0%nat = images !! 1%nat ∧ moved !! 1%nat = images !! 0%nat) ∧
  (let moved := moveImageDown images 1 in
   moved !! 1%nat = images !! 2%nat ∧ moved !! 2%nat = images !! 1%nat).
Proof.
  intros images.
  destruct (moveImage_boundary_and_swap images 1) as (Hup0 & Hdown & Hup & Hdn).
  assert (0 < 1 < length images)%nat as H1 by (vm_compute; lia).
  assert (1 + 1 < length images)%nat as H2 by (vm_compute; lia).
  destruct (Hup H1) as (_ & Ha & Hb & _). destruct (Hdn H2) as (_ & Hc & Hd & _).
  split; [exact H1|]. split; [exact H2|].
  split; [exact Hup0|]. split; [exact Hdown|].
  split; [reflexivity|]. split; [reflexivity|].
  split; [exact (conj Ha Hb) | exact (conj Hc Hd)].
Defined.

(** C10.  For [0 < i < length], [moveImageUp(i)] followed by
    [moveImageDown(i - 1)] gives back the list, and each of the two moves
    yields a permutation of the list it is given. *)
Theorem moveImageUp_moveImageDown {A : Type} (images : array A) (i : nat) :
  (0 < i < length images)%nat →
  moveImageDown (moveImageUp images (Z.of_nat i)) (Z.of_nat i - 1) = images ∧
  moveImageUp images (Z.of_nat i) ≡ₚ images ∧
  moveImageDown images (Z.of_nat i - 1) ≡ₚ images.
Proof.
  intros [Hpos Hlt]. destruct i as [|j]; [lia|].
  destruct (lookup_lt_is_Some_2 images j) as [x Hx]; [lia|].
  destruct (lookup_lt_is_Some_2 images (S j)) as [y Hy]; [lia|].
  replace (Z.of_nat (S j) - 1)%Z with (Z.of_nat j) by lia.
  rewrite (moveImageUp_swap images j x y Hx Hy).
  rewrite (moveImageDown_swap images j x y Hx Hy).
  destruct (swap_lookup images j x y Hx Hy) as (Hj & HSj & _).
  rewrite (moveImageDown_swap _ j y x Hj HSj).
  split_and!.
  - by apply swap_swap.
  - by apply swap_Permutation.
  - by apply swap_Permutation.
Qed.

Lemma moveImageUp_moveImageDown_witness :
  let images := dense ["a"; "b"; "c"] in
  (0 < 2 < length images)%nat ∧
  moveImageDown (moveImageUp images 2) (2 - 1) = images ∧
  moveImageUp images 2 ≡ₚ images ∧
  moveImageDown images (2 - 1) ≡ₚ images.
Proof.
  intros images.
  assert (0 < 2 < length images)%nat as H by (vm_compute; lia).
  split; [exact H|].
  exact (moveImageUp_moveImageDown images 2 H).
Defined.

(** ** Removal *)

Lemma removeImage_filter (id0 : string) (l : list img) :
  removeImage id0 (dense l) = Ok (dense (filter (λ i, id i ≠ id0) l)).
Proof.
  induction l as [|i l IH]; [done|].
  cbn [dense fmap list_fmap removeImage]. unfold dense in IH. rewrite IH.
  destruct (String.eqb_spec (id i) id0) as [E|E].
  - by rewrite filter_cons_False by (intros ?; done).
  - by rewrite filter_cons_True.
Qed.

Lemma filter_all {B : Type} (P : B → Prop) `{∀ x, Decision (P x)} (l : list B) :
  (∀ y, y ∈ l → P y) → filter P l = l.
Proof.
  induction l as [|x l IH]; intros Hl; [done|].
  rewrite filter_cons_True by (apply Hl; by left).
  f_equal. apply IH. intros y Hy. apply Hl. by right.
Qed.

(** C9.  [removeImage(id)] keeps, in their order, the entries whose id
    differs from [id].  When one entry has that id it is the one removed;
    when none has it the list is unchanged. *)
Theorem removeImage_removes (id0 : string) (l : list img) :
  removeImage id0 (dense l) = Ok (dense (filter (λ i, id i ≠ id0) l)) ∧
  (∀ (before after : list img) (x : img),
     l = (before ++ x :: after)%list → id x = id0 →
     (∀ y, y ∈ (before ++ after)%list → id y ≠ id0) →
     removeImage id0 (dense l) = Ok (dense (before ++ after)%list)) ∧
  ((∀ y, y ∈ l → id y ≠ id0) → removeImage id0 (dense l) = Ok (dense l)).
Proof.
  split_and!.
  - apply removeImage_filter.
  - intros before after x -> Hx Hothers. rewrite removeImage_filter.
    do 2 f_equal. rewrite filter_app, filter_cons_False by (intros ?; done).
    rewrite <- filter_app. by apply filter_all.
  - intros Hl. rewrite removeImage_filter. do 2 f_equal. by apply filter_all.
Qed.

Lemma removeImage_removes_witness :
  let a := scan 0 "a.jpg" 800 600 in
  let b := scan 1 "b.jpg" 600 800 in
  (∀ y, y ∈ [a; b] → id y ≠ "1700000000000-7") ∧
  (∀ y, y ∈ [b] → id y ≠ "1700000000000-0") ∧
  removeImage "1700000000000-0" (dense [a; b]) = Ok (dense [b]) ∧
  removeImage "1700000000000-7" (dense [a; b]) = Ok (dense [a; b]).
Proof.
  intros a b.
  assert (∀ y, y ∈ [a; b] → id y ≠ "1700000000000-7") as Hnone.
  { intros y Hy. apply list_elem_of_In in Hy.
    destruct Hy as [<-|[<-|[]]]; vm_compute; discriminate. }
  assert (∀ y, y ∈ [b] → id y ≠ "1700000000000-0") as Hone.
  { intros y Hy. apply list_elem_of_In in Hy.
    destruct Hy as [<-|[]]; vm_compute; discriminate. }
  split; [exact Hnone|]. split; [exact Hone|]. split.
  - destruct (removeImage_removes "1700000000000-0" [a; b]) as (_ & Hunique & _).
    exact (Hunique [] [b] a eq_refl eq_refl Hone).
  - destruct (removeImage_removes "1700000000000-7" [a; b]) as (_ & _ & Habsent).
    exact (Habsent Hnone).
Defined.

(** ** The page list *)

(** C5.  A list of N encoded images gives N pages in the same order:
    page [i] carries the data and the geometry of entry [i] and asks for
    a page break exactly when [i < N - 1].  The pages are a function of
    the list alone, and page [i] depends only on entry [i] and on N. *)
Theorem imageHTML_pages (imagesWithData : list imageWithData) :
  length (imageHTML imagesWithData) = length imagesWithData ∧
  (∀ (i : nat) (img : imageWithData),
     imagesWithData !! i = Some img →
     ∃ p : page,
       imageHTML imagesWithData !! i = Some p ∧
       src p = dataUri img ∧
       box p = fit (image img) ∧
       pageBreakAfter p = bool_decide (i < length imagesWithData - 1)%nat) ∧
  (∀ (other : list imageWithData) (i : nat),
     length other = length imagesWithData →
     other !! i = imagesWithData !! i →
     imageHTML other !! i = imageHTML imagesWithData !! i).
Proof.
  split_and!.
  - apply length_imap.
  - intros i img Hi. rewrite imageHTML_lookup, Hi. cbn [fmap option_fmap option_map].
    eexists. split; [reflexivity|]. cbn [src box pageBreak].
    split; [done|]. split; [done|].
    apply lookup_lt_Some in Hi. unfold pageBreakAfter. cbn [pageBreak].
    destruct (Z.ltb_spec (Z.of_nat i) (Z.of_nat (length imagesWithData) - 1)).
    + rewrite bool_decide_eq_true_2 by lia. reflexivity.
    + rewrite bool_decide_eq_false_2 by lia. reflexivity.
  - intros other i Hlen Hi. by rewrite !imageHTML_lookup, Hlen, Hi.
Qed.

Lemma imageHTML_pages_witness :
  let a := {| image := scan 0 "a.jpg" 800 600; dataUri := "data:image/jpeg;base64,AAAA" |} in
  let b := {| image := scan 1 "b.png" 600 800; dataUri := "data:image/png;base64,BBBB" |} in
  [a; b] !! 0%nat = Some a ∧
  length (imageHTML [a; b]) = 2%nat ∧
  ∃ p : page,
    imageHTML [a; b] !! 0%nat = Some p ∧ src p = dataUri a ∧
    box p = fit (image a) ∧ pageBreakAfter p = true.
Proof.
  intros a b.
  destruct (imageHTML_pages [a; b]) as (Hlen & Hpage & _).
  split; [reflexivity|]. split; [exact Hlen|].
  exact (Hpage 0%nat a eq_refl).
Defined.

Example two_pages :
  map pageBreakAfter
    (imageHTML [ {| image := scan 0 "a.jpg" 800 600; dataUri := "" |};
                 {| image := scan 1 "b.png" 600 800; dataUri := "" |} ])
  = [true; false].
Proof. reflexivity. Qed.

(** ** Runs in flight *)

Lemma resume_next (w : World) (r r' : stage) (st st' : App) :
  resume w r st = (st', Some r') → st' = st.
Proof.
  destruct r; cbn;
    repeat (match goal with
            | |- context [match ?x with _ => _ end] => destruct x; cbn
            end); congruence.
Qed.

Lemma resume_end (w : World) (r : stage) (st st' : App) :
  resume w r st = (st', None) → isGenerating st' = false.
Proof.
  destruct r; cbn;
    repeat (match goal with
            | |- context [match ?x with _ => _ end] => destruct x; cbn
            end); intros [= <-]; reflexivity.
Qed.

Lemma single_run_step (a : action) (s : System) :
  single_run s → single_run (step a s).
Proof.
  unfold single_run. intros [Hlen Hflag]. destruct s as [st rs]. cbn in *.
  destruct a as [|k w|newImages]; cbn.
  - unfold onPress_generatePDF, generatePDF.
    destruct (isGenerating st) eqn:Egen; cbn.
    + rewrite andb_false_r. cbn. rewrite app_nil_r, Egen. done.
    + assert (rs = []) as ->.
      { destruct rs as [|r rs]; [done|].
        destruct Hflag as [_ Hflag]. by discriminate Hflag. }
      destruct (length (images st)) eqn:Elen; cbn; [by rewrite Egen|].
      split; [lia|]. done.
  - destruct rs as [|r [|r' rs]]; cbn in Hlen; [by destruct k| |lia].
    destruct k as [|k]; cbn; [|done].
    destruct (resume w r st) as [st' [r'|]] eqn:Eres; cbn.
    + apply resume_next in Eres as ->. split; [lia|].
      split; [done|]. intros _. by apply Hflag.
    + apply resume_end in Eres. rewrite Eres. split; [lia|]. done.
  - done.
Qed.

Lemma single_run_run (actions : list action) (s : System) :
  single_run s → single_run (run actions s).
Proof.
  revert s. induction actions as [|a actions IH]; intros s Hs; [done|].
  cbn. apply IH. by apply single_run_step.
Qed.

(** C3, as the code has it.  In a state reached through the interface,
    a run in flight is the only one and the generation flag is set; the
    "Generate PDF" button is then disabled, so that a press calls nothing:
    the state and the run in flight stay as they are, no error is raised,
    and the run ends as it would have. *)
Theorem generate_button_disabled_in_flight
    (actions : list action) (s : System) (r : stage) :
  s = run actions initial →
  r ∈ runs s →
  runs s = [r] ∧
  isGenerating (app s) = true ∧
  onPress_generatePDF (app s) = (app s, None) ∧
  step Press_generatePDF s = s ∧
  ∀ w : World, outcome w r (app (step Press_generatePDF s)) = outcome w r (app s).
Proof.
  intros -> Hr.
  assert (single_run (run actions initial)) as [Hlen Hflag].
  { apply single_run_run. split; cbn; [lia|]. done. }
  destruct (run actions initial) as [st rs]. cbn in *.
  assert (rs = [r]) as ->.
  { destruct rs as [|r0 [|r1 rs]]; cbn in Hlen; [|apply list_elem_of_singleton in Hr as ->|lia].
    - by apply elem_of_nil in Hr.
    - done. }
  assert (isGenerating st = true) as Egen by (by apply Hflag).
  assert (onPress_generatePDF st = (st, None)) as Epress.
  { unfold onPress_generatePDF. by rewrite Egen, andb_false_r. }
  split_and!; [done | done | done | | ].
  - unfold step. cbn. by rewrite Epress.
  - intros w. unfold step. cbn. by rewrite Epress.
Qed.

Lemma generate_button_disabled_in_flight_witness :
  let l := [scan 0 "a.jpg" 800 600] in
  let actions := [Set_images (dense l); Press_generatePDF] in
  let s := {| app := generating l; runs := [Encoding (dense l)] |} in
  s = run actions initial ∧
  Encoding (dense l) ∈ runs s ∧
  runs s = [Encoding (dense l)] ∧
  isGenerating (app s) = true ∧
  onPress_generatePDF (app s) = (app s, None) ∧
  step Press_generatePDF s = s ∧
  ∀ w : World,
    outcome w (Encoding (dense l)) (app (step Press_generatePDF s))
    = outcome w (Encoding (dense l)) (app s).
Proof.
  intros l actions s.
  assert (s = run actions initial) as Hs by reflexivity.
  assert (Encoding (dense l) ∈ runs s) as Hr by (apply list_elem_of_In; left; reflexivity).
  split; [exact Hs|]. split; [exact Hr|].
  exact (generate_button_disabled_in_flight actions s (Encoding (dense l)) Hs Hr).
Defined.

(** C3, as the spec has it, fails: [generatePDF] does not look at the
    generation flag, and a call made while a run is in flight starts a
    second run instead of being rejected. *)
Lemma generatePDF_not_guarded :
  ¬ (∀ st : App, isGenerating st = true → (generatePDF st).2 = None).
Proof.
  intros H. specialize (H (generating [scan 0 "a.jpg" 800 600]) eq_refl).
  vm_compute in H. discriminate H.
Qed.

Example generatePDF_in_flight :
  generatePDF (generating [scan 0 "a.jpg" 800 600])
  = (generating [scan 0 "a.jpg" 800 600],
     Some (Encoding (dense [scan 0 "a.jpg" 800 600]))).
Proof. reflexivity. Qed.

(** * Further properties *)

(** ** More on the page geometry *)

Section Scaling.
Local Open Scope Q_scope.

(** X1.  For an image of positive width and height the render size is
    the image scaled by one factor; the image scaled by that factor lies
    within the 794 x 1123 page, and by no larger factor does it. *)
Theorem fit_largest_scale (i : img) (w h : Q) :
  width i = Fin w → height i = Fin h → 0 < w → 0 < h →
  ∃ renderW renderH scale : Q,
    imageWidth (fit i) = Fin renderW ∧ imageHeight (fit i) = Fin renderH ∧
    0 < scale ∧ renderW == scale * w ∧ renderH == scale * h ∧
    scale * w <= 794 ∧ scale * h <= 1123 ∧
    ∀ s : Q, s * w <= 794 → s * h <= 1123 → s <= scale.
Proof.
  intros Hw Hh Hwpos Hhpos.
  pose proof (ratio_pos w h Hwpos Hhpos) as Hr.
  destruct (fit_candidates i w h Hw Hh Hwpos Hhpos) as [[Hle ->]|[Hgt ->]]; cbn.
  - exists 794, (794 / (w / h)), (794 / w).
    assert (794 / w * w == 794) as Ew by (field; lra).
    assert (794 / w * h == 794 / (w / h)) as Eh by (field; split; lra).
    split_and!; try reflexivity.
    + apply Qlt_shift_div_l; lra.
    + by rewrite Ew.
    + by rewrite Eh.
    + rewrite Ew. lra.
    + by rewrite Eh.
    + intros s Hs _. apply Qle_shift_div_l; lra.
  - exists (1123 * (w / h)), 1123, (1123 / h).
    pose proof (div_gt_mul_lt _ _ _ Hr Hgt) as Hlt.
    assert (1123 / h * w == 1123 * (w / h)) as Ew by (field; lra).
    assert (1123 / h * h == 1123) as Eh by (field; lra).
    split_and!; try reflexivity.
    + apply Qlt_shift_div_l; lra.
    + by rewrite Ew.
    + by rewrite Eh.
    + rewrite Ew. lra.
    + rewrite Eh. lra.
    + intros s _ Hs. apply Qle_shift_div_l; lra.
Qed.

Lemma fit_largest_scale_witness :
  width (photo 800 600) = Fin 800 ∧ height (photo 800 600) = Fin 600 ∧
  0 < 800 ∧ 0 < 600 ∧
  ∃ renderW renderH scale : Q,
    imageWidth (fit (photo 800 600)) = Fin renderW ∧
    imageHeight (fit (photo 800 600)) = Fin renderH ∧
    0 < scale ∧ renderW == scale * 800 ∧ renderH == scale * 600 ∧
    scale * 800 <= 794 ∧ scale * 600 <= 1123 ∧
    ∀ s : Q, s * 800 <= 794 → s * 600 <= 1123 → s <= scale.
Proof.
  split; [reflexivity|]. split; [reflexivity|].
  split; [reflexivity|]. split; [reflexivity|].
  apply (fit_largest_scale (photo 800 600) 800 600); reflexivity.
Defined.

Lemma width_first_iff (w h : Q) :
  0 < w → 0 < h → (794 / (w / h) <= 1123 ↔ 794 * h <= 1123 * w).
Proof.
  intros Hw Hh.
  assert (794 / (w / h) == 794 * h / w) as -> by (field; split; lra).
  split; intros H.
  - apply (Qmult_le_r _ _ w Hw) in H.
    assert (794 * h / w * w == 794 * h) as E by (field; lra).
    by rewrite E in H.
  - apply Qle_shift_div_r; lra.
Qed.

(** X2.  For an image of positive width and height, the render width is
    the page width exactly when [794 * h <= 1123 * w], and the render
    height is the page height exactly when [1123 * w <= 794 * h].  In the
    first case the horizontal offset is zero and the height is
    [794 * h / w]; in the other the vertical offset is zero, the width is
    [1123 * w / h], less than the page width, and the horizontal offset is
    positive. *)
Theorem fit_spans_one_axis (i : img) (w h : Q) :
  width i = Fin w → height i = Fin h → 0 < w → 0 < h →
  ∃ renderW renderH offsetX offsetY : Q,
    imageWidth (fit i) = Fin renderW ∧ imageHeight (fit i) = Fin renderH ∧
    leftPos (fit i) = Fin offsetX ∧ topPos (fit i) = Fin offsetY ∧
    (renderW == 794 ↔ 794 * h <= 1123 * w) ∧
    (renderH == 1123 ↔ 1123 * w <= 794 * h) ∧
    (794 * h <= 1123 * w →
     renderH == 794 * h / w ∧ offsetX == 0 ∧ offsetY == (1123 - renderH) / 2) ∧
    (1123 * w < 794 * h →
     renderW == 1123 * w / h ∧ renderW < 794 ∧ offsetY == 0 ∧
     0 < offsetX ∧ offsetX == (794 - renderW) / 2).
Proof.
  intros Hw Hh Hwpos Hhpos.
  pose proof (ratio_pos w h Hwpos Hhpos) as Hr.
  pose proof (width_first_iff w h Hwpos Hhpos) as Hiff.
  assert (794 / (w / h) == 794 * h / w) as Eh by (field; split; lra).
  assert (1123 * (w / h) == 1123 * w / h) as Ew by (field; lra).
  destruct (fit_candidates i w h Hw Hh Hwpos Hhpos) as [[Hle ->]|[Hgt ->]]; cbn.
  - apply Hiff in Hle as Hwide.
    exists 794, (794 / (w / h)), ((794 - 794) / 2), ((1123 - 794 / (w / h)) / 2).
    split_and!; try reflexivity.
    + split; [done|reflexivity].
    + split.
      * intros E. rewrite Eh in E.
        assert (794 * h / w * w == 794 * h) as E' by (field; lra).
        rewrite E in E'. lra.
      * intros Htall. assert (794 * h == 1123 * w) as E by lra.
        rewrite Eh, E. field. lra.
    + intros _. split_and!; [done|field|reflexivity].
    + intros Htall. lra.
  - assert (1123 * w < 794 * h) as Htall.
    { destruct (Qlt_le_dec (1123 * w) (794 * h)) as [|Hwide]; [done|].
      apply Hiff in Hwide. lra. }
    pose proof (div_gt_mul_lt _ _ _ Hr Hgt) as Hlt.
    exists (1123 * (w / h)), 1123, ((794 - 1123 * (w / h)) / 2), ((1123 - 1123) / 2).
    split_and!; try reflexivity.
    + split; [lra|]. intros Hwide. lra.
    + split; [lra|reflexivity].
    + intros Hwide. lra.
    + intros _. split_and!; [done|lra|field| |reflexivity].
      apply Qlt_shift_div_l; lra.
Qed.

Lemma fit_spans_one_axis_witness :
  width (photo 600 1200) = Fin 600 ∧ height (photo 600 1200) = Fin 1200 ∧
  0 < 600 ∧ 0 < 1200 ∧
  ∃ renderW renderH offsetX offsetY : Q,
    imageWidth (fit (photo 600 1200)) = Fin renderW ∧
    imageHeight (fit (photo 600 1200)) = Fin renderH ∧
    leftPos (fit (photo 600 1200)) = Fin offsetX ∧
    topPos (fit (photo 600 1200)) = Fin offsetY ∧
    (renderW == 794 ↔ 794 * 1200 <= 1123 * 600) ∧
    (renderH == 1123 ↔ 1123 * 600 <= 794 * 1200) ∧
    (794 * 1200 <= 1123 * 600 →
     renderH == 794 * 1200 / 600 ∧ offsetX == 0 ∧
     offsetY == (1123 - renderH) / 2) ∧
    (1123 * 600 < 794 * 1200 →
     renderW == 1123 * 600 / 1200 ∧ renderW < 794 ∧ offsetY == 0 ∧
     0 < offsetX ∧ offsetX == (794 - renderW) / 2).
Proof.
  split; [reflexivity|]. split; [reflexivity|].
  split; [reflexivity|]. split; [reflexivity|].
  apply (fit_spans_one_axis (photo 600 1200) 600 1200); reflexivity.
Defined.

(** X3.  The height style computed for the preview of an image of
    positive width and height (lines 339-341) is [300 * h / w]: the
    height of a box 300 wide with the aspect ratio of the image, which is
    also the ratio of the size computed for the page.  (The style sheet
    then lays the preview out at width 100% and at most 400 high; that is
    outside this computation.) *)
Theorem previewHeight_ratio (item : img) (w h : Q) :
  width item = Fin w → height item = Fin h → 0 < w → 0 < h →
  ∃ previewH renderW renderH : Q,
    previewHeight item = Fin previewH ∧ 0 < previewH ∧
    previewH == 300 * h / w ∧ 300 / previewH == w / h ∧
    imageWidth (fit item) = Fin renderW ∧ imageHeight (fit item) = Fin renderH ∧
    300 / previewH == renderW / renderH.
Proof.
  intros Hw Hh Hwpos Hhpos.
  pose proof (ratio_pos w h Hwpos Hhpos) as Hr.
  assert (previewHeight item = Fin (300 / (w / h))) as Hprev.
  { unfold previewHeight, aspectRatio, containerWidth. rewrite Hw, Hh. cbn [js_div].
    rewrite (Qzero_false h) by lra. cbn [js_div].
    by rewrite (Qzero_false (w / h)) by lra. }
  assert (0 < 300 / (w / h)) as Hpos by (apply Qlt_shift_div_l; lra).
  assert (300 / (300 / (w / h)) == w / h) as Hratio by (field; split; lra).
  destruct (fit_candidates item w h Hw Hh Hwpos Hhpos) as [[Hle ->]|[Hgt ->]]; cbn.
  - exists (300 / (w / h)), 794, (794 / (w / h)).
    split_and!; try done.
    + field. split; lra.
    + rewrite Hratio. field. split; lra.
  - exists (300 / (w / h)), (1123 * (w / h)), 1123.
    split_and!; try done.
    + field. split; lra.
    + rewrite Hratio. field. lra.
Qed.

Lemma previewHeight_ratio_witness :
  width (photo 800 600) = Fin 800 ∧ height (photo 800 600) = Fin 600 ∧
  0 < 800 ∧ 0 < 600 ∧
  ∃ previewH renderW renderH : Q,
    previewHeight (photo 800 600) = Fin previewH ∧ 0 < previewH ∧
    previewH == 300 * 600 / 800 ∧ 300 / previewH == 800 / 600 ∧
    imageWidth (fit (photo 800 600)) = Fin renderW ∧
    imageHeight (fit (photo 800 600)) = Fin renderH ∧
    300 / previewH == renderW / renderH.
Proof.
  split; [reflexivity|]. split; [reflexivity|].
  split; [reflexivity|]. split; [reflexivity|].
  apply (previewHeight_ratio (photo 800 600) 800 600); reflexivity.
Defined.
End Scaling.

(** ** Page breaks *)

(** X4.  Every page but the last asks for a page break and the last one
    does not: a document of N images has N - 1 forced breaks and no break
    after its end. *)
Theorem imageHTML_breaks (imagesWithData : list imageWithData) :
  pageBreakAfter <$> imageHTML imagesWithData =
  match imagesWithData with
  | [] => []
  | _ :: _ => (replicate (length imagesWithData - 1) true ++ [false])%list
  end.
Proof.
  apply list_eq. intros k.
  rewrite list_lookup_fmap, imageHTML_lookup.
  destruct imagesWithData as [|d ds] eqn:E; [done|]. rewrite <- E.
  assert (0 < length imagesWithData)%nat as Hlen by (rewrite E; cbn; lia).
  clear E. set (n := length imagesWithData) in *.
  destruct (imagesWithData !! k) as [x|] eqn:Hk; cbn.
  - apply lookup_lt_Some in Hk. fold n in Hk. unfold pageBreakAfter. cbn.
    destruct (Z.ltb_spec (Z.of_nat k) (Z.of_nat n - 1)).
    + rewrite lookup_app_l by (rewrite length_replicate; lia).
      by rewrite lookup_replicate_2 by lia.
    + rewrite lookup_app_r by (rewrite length_replicate; lia).
      rewrite length_replicate. by replace (k - (n - 1))%nat with 0%nat by lia.
  - apply lookup_ge_None in Hk. fold n in Hk. symmetry. apply lookup_ge_None.
    rewrite length_app, length_replicate. cbn. lia.
Qed.

(** ** The content type *)

Lemma string_app_cons (x : ascii) (a b : string) :
  String x a +:+ b = String x (a +:+ b).
Proof. reflexivity. Qed.

Lemma string_app_assoc (a b c : string) : (a +:+ b) +:+ c = a +:+ b +:+ c.
Proof.
  induction a as [|x a IH]; [done|]. by rewrite !string_app_cons, IH.
Qed.

Lemma prefix_spec (sub s : string) :
  String.prefix sub s = true ↔ ∃ post, s = sub +:+ post.
Proof.
  revert sub. induction s as [|c s IH]; intros [|c' sub]; cbn.
  - split; [by exists ""|done].
  - split; [done|]. by intros [post [=]].
  - split; [by eexists|done].
  - destruct (ascii_dec c' c) as [->|Hne].
    + rewrite IH. split; intros [post E]; exists post; [by rewrite E|]. by injection E.
    + split; [done|]. intros [post [= ? _]]. by destruct Hne.
Qed.

(** [includes] is containment as a substring. *)
Lemma includes_spec (s sub : string) :
  includes s sub = true ↔ ∃ pre post, s = pre +:+ sub +:+ post.
Proof.
  induction s as [|c s IH]; cbn [includes]; rewrite orb_true_iff, prefix_spec.
  - split.
    + intros [[post E]|]; [|done]. by exists "", post.
    + intros ([|c pre] & post & E); [|done]. left. by exists post.
  - rewrite IH. split.
    + intros [[post E]|(pre & post & E)].
      * by exists "", post.
      * exists (String c pre), post. cbn. by rewrite E.
    + intros ([|c' pre] & post & E).
      * left. by exists post.
      * right. injection E as -> E. by exists pre, post.
Qed.

Lemma toLowerCase_app (a b : string) :
  toLowerCase (a +:+ b) = toLowerCase a +:+ toLowerCase b.
Proof.
  induction a as [|x a IH]; [done|].
  rewrite string_app_cons. cbn [toLowerCase]. by rewrite string_app_cons, IH.
Qed.

(** The test of line 137 reduces to its second half. *)
Lemma mimeType_includes (uri0 : string) :
  mimeType uri0 =
    (if includes (toLowerCase uri0) "png" then "image/png" else "image/jpeg").
Proof.
  assert (includes (toLowerCase uri0) ".png" = true →
          includes (toLowerCase uri0) "png" = true) as Hdot.
  { rewrite !includes_spec. intros (pre & post & E).
    exists (pre +:+ "."), post. by rewrite E, string_app_assoc. }
  unfold mimeType.
  destruct (includes (toLowerCase uri0) "png") eqn:Epng.
  - by rewrite orb_true_r.
  - destruct (includes (toLowerCase uri0) ".png") eqn:Edot; [|done].
    discriminate (Hdot eq_refl).
Qed.

(** X5.  The content type is [image/png] exactly when the lower-cased
    locator contains "png" somewhere, and [image/jpeg] otherwise; the
    test for ".png" adds nothing to the test for "png". *)
Theorem mimeType_png_iff (uri0 : string) :
  (mimeType uri0 = "image/png" ↔
   ∃ pre post, toLowerCase uri0 = pre +:+ "png" +:+ post) ∧
  (mimeType uri0 = "image/png" ∨ mimeType uri0 = "image/jpeg") ∧
  mimeType uri0 =
    (if includes (toLowerCase uri0) "png" then "image/png" else "image/jpeg").
Proof.
  pose proof (mimeType_includes uri0) as Hmime.
  split_and!; [| |done].
  - rewrite Hmime, <- includes_spec.
    by destruct (includes (toLowerCase uri0) "png").
  - rewrite Hmime. destruct (includes (toLowerCase uri0) "png"); auto.
Qed.

(** X6.  A locator that contains "png" in any mix of cases, anywhere
    (in its extension or in a directory name), is tagged [image/png]. *)
Theorem mimeType_any_case (pre ext post : string) :
  toLowerCase ext = "png" → mimeType (pre +:+ ext +:+ post) = "image/png".
Proof.
  intros Hext. rewrite mimeType_includes.
  assert (includes (toLowerCase (pre +:+ ext +:+ post)) "png" = true) as ->; [|done].
  apply includes_spec. exists (toLowerCase pre), (toLowerCase post).
  by rewrite !toLowerCase_app, Hext.
Qed.

Lemma mimeType_any_case_witness :
  toLowerCase "PnG" = "png" ∧
  mimeType ("content://media/" +:+ "PnG" +:+ "-exports/IMG_7.jpg") = "image/png".
Proof.
  split; [reflexivity|].
  apply (mimeType_any_case "content://media/" "PnG" "-exports/IMG_7.jpg").
  reflexivity.
Defined.

(** ** More on the run of generatePDF *)

Lemma Promise_all_Throw_inv {A : Type} (order : list nat)
    (promises : list (result A)) (e : error) :
  Promise_all order promises = Throw e → ∃ k, promises !! k = Some (Throw e).
Proof.
  unfold Promise_all.
  destruct (first_rejection _ promises) as [e'|] eqn:E; [|done].
  intros [= <-]. apply first_rejection_Some in E as (k & _ & Hk). by exists k.
Qed.

Lemma show_alerts (shown : list (string * string)) (st : App) :
  foldl (λ st a, Alert_alert a.1 a.2 st) st shown =
  {| images := images st; isGenerating := isGenerating st;
     alerts := (alerts st ++ shown)%list |}.
Proof.
  revert st. induction shown as [|[title text] shown IH]; intros st; cbn.
  - rewrite app_nil_r. by destruct st.
  - rewrite IH. cbn. by rewrite <- app_assoc.
Qed.

(** One [await] at a time. *)
Lemma outcome_step (w : World) (s : stage) (st : App) :
  outcome w s st =
  match (resume w s st).2 with
  | None => (resume w s st).1
  | Some s' => outcome w s' (resume w s st).1
  end.
Proof.
  unfold outcome.
  change (drive w 4 (Some s) st)
    with (let '(st', s') := resume w s st in drive w 3 s' st').
  pose proof (resume_remaining w s st) as Hlt.
  destruct (resume w s st) as [st' [s'|]]; cbn [fst snd] in *; [|done].
  apply drive_fuel; [|destruct s'; cbn; lia].
  destruct s; cbn in *; lia.
Qed.

Lemma succeeded_alerts (shown : list (string * string)) (st : App) :
  succeeded shown st =
  {| images := images st; isGenerating := false;
     alerts := (alerts st ++ shown ++ [("Success", "PDF generated successfully!")])%list |}.
Proof.
  unfold succeeded. rewrite show_alerts. unfold setIsGenerating, Alert_alert. cbn.
  by rewrite <- app_assoc.
Qed.

Lemma outcome_Sharing (w : World) (uri0 : string) (st : App) :
  outcome w (Sharing uri0) st = (resume w (Sharing uri0) st).1.
Proof.
  rewrite outcome_step. cbn [resume].
  destruct (Platform_OS w); by destruct (shareAsync w uri0 _).
Qed.

Lemma outcome_Saving (w : World) (uri0 : string) (st : App) :
  outcome w (Saving uri0) st =
  match save w uri0 with
  | Throw error => failed w error st
  | Ok shown =>
      {| images := images st; isGenerating := false;
         alerts := (alerts st ++ shown ++ [("Success", "PDF generated successfully!")])%list |}
  end.
Proof.
  rewrite outcome_step. cbn [resume].
  unfold save, savePDFAndroid, savePDFiOS.
  destruct (Platform_OS w) eqn:Eos; destruct (isAvailableAsync w) as [[|]|e];
    cbn [fst snd]; rewrite ?outcome_Sharing; cbn [resume]; rewrite ?Eos;
    try (destruct (shareAsync w uri0 _) as [[]|e]; cbn [fst snd]);
    by rewrite ?succeeded_alerts.
Qed.

Lemma outcome_Rendering (w : World) (html : list page) (st : App) :
  outcome w (Rendering html) st =
  match printToFileAsync w html with
  | Throw error => failed w error st
  | Ok uri0 => outcome w (Saving uri0) st
  end.
Proof.
  rewrite outcome_step. cbn [resume].
  by destruct (printToFileAsync w html) as [uri0|e].
Qed.

Lemma outcome_Encoding (w : World) (snapshot : array img) (st : App) :
  outcome w (Encoding snapshot) st =
  match Promise_all (settled w) (imap (readImage w) snapshot) with
  | Throw error => failed w error st
  | Ok imagesWithData => outcome w (Rendering (imageHTML imagesWithData)) st
  end.
Proof.
  rewrite outcome_step. cbn [resume].
  by destruct (Promise_all _ _) as [ds|e].
Qed.

Lemma reads_in_order (w : World) (l : list img) (content : string → string) :
  (∀ i, i ∈ l → readAsStringAsync w (uri i) = Ok (content (uri i))) →
  imap (readImage w) (dense l) =
  Ok <$> ((λ i, {| image := i;
                   dataUri := "data:" +:+ mimeType (uri i) +:+ ";base64,"
                              +:+ content (uri i) |}) <$> l).
Proof.
  intros Hl. apply list_eq. intros k.
  rewrite readImage_lookup. unfold dense. rewrite !list_lookup_fmap.
  destruct (l !! k) as [i|] eqn:Hk; [|done]. cbn.
  f_equal. apply readImage_Ok, Hl. by eapply list_elem_of_lookup_2.
Qed.

(** X7.  When every image is read, the page list handed to the printer
    follows the order of the image list, whatever the order in which the
    reads complete: page [k] embeds the content of the file of image [k],
    tagged with its content type. *)
Theorem pages_in_list_order
    (w : World) (l : list img) (content : string → string) (st : App) :
  (∀ i, i ∈ l → readAsStringAsync w (uri i) = Ok (content (uri i))) →
  resume w (Encoding (dense l)) st =
    (st, Some (Rendering (imageHTML
       ((λ i, {| image := i;
                 dataUri := "data:" +:+ mimeType (uri i) +:+ ";base64,"
                            +:+ content (uri i) |}) <$> l)))) ∧
  ∀ k i, l !! k = Some i →
    src <$> imageHTML
       ((λ i, {| image := i;
                 dataUri := "data:" +:+ mimeType (uri i) +:+ ";base64,"
                            +:+ content (uri i) |}) <$> l) !! k
    = Some ("data:" +:+ mimeType (uri i) +:+ ";base64," +:+ content (uri i)).
Proof.
  intros Hl. split.
  - unfold resume. rewrite (reads_in_order w l content Hl).
    by rewrite Promise_all_fulfilled.
  - intros k i Hk. rewrite imageHTML_lookup, list_lookup_fmap, Hk. done.
Qed.

Lemma pages_in_list_order_witness :
  let l := [scan 0 "a.jpg" 800 600; scan 1 "b.png" 600 800] in
  (∀ i, i ∈ l → readAsStringAsync reversed_world (uri i) = Ok ("Zm9v" +:+ uri i)) ∧
  resume reversed_world (Encoding (dense l)) (generating l) =
    (generating l,
     Some (Rendering (imageHTML
       [ {| image := scan 0 "a.jpg" 800 600;
            dataUri := "data:image/jpeg;base64,Zm9va.jpg" |};
         {| image := scan 1 "b.png" 600 800;
            dataUri := "data:image/png;base64,Zm9vb.png" |} ]))).
Proof.
  intros l.
  assert (∀ i, i ∈ l → readAsStringAsync reversed_world (uri i) = Ok ("Zm9v" +:+ uri i))
    as Hl by (intros i _; reflexivity).
  split; [exact Hl|].
  exact (proj1 (pages_in_list_order reversed_world l (λ u, "Zm9v" +:+ u) (generating l) Hl)).
Defined.

(** X8.  A run stops at the reads exactly when some entry of the list
    is [undefined] or the read of some image is rejected; in every other
    case it goes on to the printing. *)
Theorem encoding_stops_iff (w : World) (snapshot : array img) (st : App) :
  (resume w (Encoding snapshot) st).2 = None ↔
  ∃ k : nat,
    snapshot !! k = Some None ∨
    ∃ i e, snapshot !! k = Some (Some i) ∧ readAsStringAsync w (uri i) = Throw e.
Proof.
  unfold resume. split.
  - destruct (Promise_all _ _) as [ds|e] eqn:E; [done|]. intros _.
    apply Promise_all_Throw_inv in E as [k Hk]. exists k.
    rewrite readImage_lookup in Hk.
    destruct (snapshot !! k) as [[i|]|]; [|by left|done].
    right. cbn in Hk. injection Hk as Hk.
    apply readImage_Throw in Hk as (cause & _ & Hcause). by exists i, cause.
  - intros [k Hk].
    assert (∃ e, imap (readImage w) snapshot !! k = Some (Throw e)) as [e He].
    { rewrite readImage_lookup.
      destruct Hk as [->|(i & e & -> & Hread)]; cbn; [by eexists|].
      unfold readImage. rewrite Hread. by eexists. }
    destruct (Promise_all_rejected (settled w) _ _ _ He) as (k' & e' & _ & ->).
    done.
Qed.

(** X9.  However a run goes, it ends with the generation flag cleared
    and the image list as it was, and it has shown at least one alert, the
    last of which is the success alert or the "Failed to generate PDF"
    error alert. *)
Theorem run_ends_clean (w : World) (s : stage) (st : App) :
  isGenerating (outcome w s st) = false ∧
  images (outcome w s st) = images st ∧
  ∃ shown : list (string * string),
    alerts (outcome w s st) = (alerts st ++ shown)%list ∧
    (last shown = Some ("Success", "PDF generated successfully!") ∨
     ∃ m, last shown = Some ("Error", "Failed to generate PDF: " +:+ m)).
Proof.
  assert (∀ e, ∃ shown : list (string * string),
            alerts (failed w e st) = (alerts st ++ shown)%list ∧
            (last shown = Some ("Success", "PDF generated successfully!") ∨
             ∃ m, last shown = Some ("Error", "Failed to generate PDF: " +:+ m)))
    as Hfailed.
  { intros e. eexists [_]. split; [done|]. right. by eexists. }
  assert (∀ uri0,
            isGenerating (outcome w (Saving uri0) st) = false ∧
            images (outcome w (Saving uri0) st) = images st ∧
            ∃ shown : list (string * string),
              alerts (outcome w (Saving uri0) st) = (alerts st ++ shown)%list ∧
              (last shown = Some ("Success", "PDF generated successfully!") ∨
               ∃ m, last shown = Some ("Error", "Failed to generate PDF: " +:+ m)))
    as Hsaving.
  { intros uri0. rewrite outcome_Saving.
    destruct (save w uri0) as [shown|e]; [|by split_and!; [done|done|apply Hfailed]].
    split_and!; [done|done|]. eexists. split; [done|]. left. apply last_snoc. }
  assert (∀ html,
            isGenerating (outcome w (Rendering html) st) = false ∧
            images (outcome w (Rendering html) st) = images st ∧
            ∃ shown : list (string * string),
              alerts (outcome w (Rendering html) st) = (alerts st ++ shown)%list ∧
              (last shown = Some ("Success", "PDF generated successfully!") ∨
               ∃ m, last shown = Some ("Error", "Failed to generate PDF: " +:+ m)))
    as Hrendering.
  { intros html. rewrite outcome_Rendering.
    destruct (printToFileAsync w html) as [uri0|e]; [apply Hsaving|].
    by split_and!; [done|done|apply Hfailed]. }
  destruct s as [snapshot|html|uri0|uri0]; [|apply Hrendering|apply Hsaving|].
  - rewrite outcome_Encoding.
    destruct (Promise_all _ _) as [ds|e]; [apply Hrendering|].
    by split_and!; [done|done|apply Hfailed].
  - rewrite outcome_Sharing. cbn [resume].
    destruct (Platform_OS w); destruct (shareAsync w uri0 _) as [[]|e];
      cbn [fst]; rewrite ?succeeded_alerts;
      try (by split_and!; [done|done|apply Hfailed]);
      (split_and!; [done|done|]; eexists; split; [done|]; left; apply last_snoc).
Qed.

(** X10.  On Android and on iOS a failure to share the document does not
    fail the run: once the document is printed the run ends with the
    success alert, preceded by one error alert when sharing was not
    available or was rejected. *)
Theorem mobile_save_failure_is_success
    (w : World) (html : list page) (uri0 : string) (st : App) :
  Platform_OS w = android ∨ Platform_OS w = ios →
  printToFileAsync w html = Ok uri0 →
  ∃ shown : list (string * string),
    alerts (outcome w (Rendering html) st) =
      (alerts st ++ shown ++ [("Success", "PDF generated successfully!")])%list ∧
    shown =
      match isAvailableAsync w with
      | Ok true =>
          match shareAsync w uri0
                  (Some (if Platform_OS w is android
                         then "Save PDF" else "Save PDF to Files")) with
          | Ok _ => []
          | Throw e => [("Error", "Failed to save PDF: " +:+ message w e)]
          end
      | Ok false => [("Error", "Sharing is not available on this device.")]
      | Throw e => [("Error", "Failed to save PDF: " +:+ message w e)]
      end ∧
    (shown = [] ∨ ∃ text, shown = [("Error", text)]).
Proof.
  intros Hos Hprint. rewrite outcome_Rendering, Hprint, outcome_Saving.
  unfold save, savePDFAndroid, savePDFiOS.
  destruct Hos as [-> | ->];
    (destruct (isAvailableAsync w) as [[|]|e];
     [ | eexists; split_and!; [done|done|right; by eexists]
       | eexists; split_and!; [done|done|right; by eexists] ]).
  - destruct (shareAsync w uri0 (Some "Save PDF")) as [[]|e] eqn:E.
    + exists []. split_and!; [done|done|by left].
    + eexists. split_and!; [done|done|right; by eexists].
  - destruct (shareAsync w uri0 (Some "Save PDF to Files")) as [[]|e] eqn:E.
    + exists []. split_and!; [done|done|by left].
    + eexists. split_and!; [done|done|right; by eexists].
Qed.

Lemma mobile_save_failure_is_success_witness :
  (Platform_OS (no_sharing android) = android ∨ Platform_OS (no_sharing android) = ios) ∧
  printToFileAsync (no_sharing android) [] = Ok "file:///out.pdf" ∧
  alerts (outcome (no_sharing android) (Rendering []) (generating []))
  = [("Error", "Failed to save PDF: User did not share");
     ("Success", "PDF generated successfully!")].
Proof.
  assert (Platform_OS (no_sharing android) = android
          ∨ Platform_OS (no_sharing android) = ios) as Hos by (left; reflexivity).
  split; [exact Hos|]. split; [reflexivity|].
  destruct (mobile_save_failure_is_success (no_sharing android) [] "file:///out.pdf"
              (generating []) Hos eq_refl) as (shown & -> & -> & _).
  reflexivity.
Defined.

(** X11.  On the other platforms the sharing step is part of the run: a
    rejected share ends the run with the "Failed to generate PDF" alert
    and no success alert, while a platform without sharing ends it with
    the success alert alone, the document having gone nowhere. *)
Theorem other_platform_sharing
    (w : World) (html : list page) (uri0 : string) (st : App) :
  Platform_OS w = other →
  printToFileAsync w html = Ok uri0 →
  (∀ e, isAvailableAsync w = Ok true → shareAsync w uri0 None = Throw e →
        alerts (outcome w (Rendering html) st) =
          (alerts st ++ [("Error", "Failed to generate PDF: " +:+ message w e)])%list) ∧
  (isAvailableAsync w = Ok false →
   alerts (outcome w (Rendering html) st) =
     (alerts st ++ [("Success", "PDF generated successfully!")])%list).
Proof.
  intros Hos Hprint. rewrite outcome_Rendering, Hprint, outcome_Saving.
  unfold save. rewrite Hos. split.
  - intros e -> ->. done.
  - intros ->. done.
Qed.

Lemma other_platform_sharing_witness :
  Platform_OS (no_sharing other) = other ∧
  printToFileAsync (no_sharing other) [] = Ok "file:///out.pdf" ∧
  isAvailableAsync (no_sharing other) = Ok true ∧
  shareAsync (no_sharing other) "file:///out.pdf" None = Throw (Error "User did not share") ∧
  alerts (outcome (no_sharing other) (Rendering []) (generating []))
  = [("Error", "Failed to generate PDF: User did not share")].
Proof.
  split; [reflexivity|]. split; [reflexivity|].
  split; [reflexivity|]. split; [reflexivity|].
  exact (proj1 (other_platform_sharing (no_sharing other) [] "file:///out.pdf"
                  (generating []) eq_refl eq_refl)
           (Error "User did not share") eq_refl eq_refl).
Defined.

(** X12.  A run works on the list it was started with: replacing the
    image list while the run is suspended changes neither its next stage
    nor the alerts it raises, and the run leaves the new list in place. *)
Theorem run_ignores_list_changes
    (w : World) (s : stage) (newImages : array img) (st : App) :
  resume w s (setImages newImages st) =
    (setImages newImages (resume w s st).1, (resume w s st).2) ∧
  outcome w s (setImages newImages st) = setImages newImages (outcome w s st).
Proof.
  assert (∀ s, resume w s (setImages newImages st) =
               (setImages newImages (resume w s st).1, (resume w s st).2)) as Hres.
  { intros [snapshot|html|uri0|uri0]; cbn [resume].
    - by destruct (Promise_all _ _).
    - by destruct (printToFileAsync w html).
    - destruct (Platform_OS w); destruct (isAvailableAsync w) as [[|]|e];
        cbn [fst snd]; by rewrite ?succeeded_alerts.
    - destruct (Platform_OS w); destruct (shareAsync w uri0 _) as [[]|e];
        cbn [fst snd]; by rewrite ?succeeded_alerts. }
  split; [apply Hres|].
  assert (∀ uri0, outcome w (Saving uri0) (setImages newImages st)
                  = setImages newImages (outcome w (Saving uri0) st)) as Hsaving.
  { intros uri0. rewrite !outcome_Saving. by destruct (save w uri0). }
  assert (∀ html, outcome w (Rendering html) (setImages newImages st)
                  = setImages newImages (outcome w (Rendering html) st)) as Hrendering.
  { intros html. rewrite !outcome_Rendering.
    destruct (printToFileAsync w html); [apply Hsaving|done]. }
  destruct s as [snapshot|html|uri0|uri0]; [|apply Hrendering|apply Hsaving|].
  - rewrite !outcome_Encoding.
    destruct (Promise_all _ _); [apply Hrendering|done].
  - rewrite !outcome_Sharing. by rewrite Hres.
Qed.

(** ** More on runs in flight *)

Lemma settle_progress (w : World) (s : System) :
  single_run s →
  (remaining (head (runs (step (Settle 0 w) s))) ≤ remaining (head (runs s)) - 1)%nat.
Proof.
  intros [Hlen _]. destruct s as [st rs]. cbn in *.
  destruct rs as [|r [|r' rs]]; cbn in Hlen; [cbn; lia| |lia].
  cbn [lookup list_lookup]. pose proof (resume_remaining w r st) as Hlt.
  destruct (resume w r st) as [st' [r'|]]; cbn in *; lia.
Qed.

(** X13.  The generation flag cannot stay set: a run awaits at most
    four promises in sequence (the reads, the printer, the availability
    of sharing, the share), so that from any state reached through the
    interface four settlements end whatever run is in flight and clear
    the flag. *)
Theorem run_in_flight_ends (actions : list action) (w1 w2 w3 w4 : World) :
  runs (run (actions ++ [Settle 0 w1; Settle 0 w2; Settle 0 w3; Settle 0 w4])
          initial) = [] ∧
  isGenerating
    (app (run (actions ++ [Settle 0 w1; Settle 0 w2; Settle 0 w3; Settle 0 w4])
            initial)) = false.
Proof.
  unfold run. rewrite foldl_app. fold (run actions initial).
  assert (single_run (run actions initial)) as H0.
  { apply single_run_run. split; cbn; [lia|done]. }
  set (s0 := run actions initial) in *. cbn [foldl].
  pose proof (single_run_step (Settle 0 w1) _ H0) as H1.
  pose proof (single_run_step (Settle 0 w2) _ H1) as H2.
  pose proof (single_run_step (Settle 0 w3) _ H2) as H3.
  pose proof (single_run_step (Settle 0 w4) _ H3) as H4.
  pose proof (settle_progress w1 _ H0) as P1.
  pose proof (settle_progress w2 _ H1) as P2.
  pose proof (settle_progress w3 _ H2) as P3.
  pose proof (settle_progress w4 _ H3) as P4.
  set (s4 := step (Settle 0 w4)
               (step (Settle 0 w3) (step (Settle 0 w2) (step (Settle 0 w1) s0)))) in *.
  assert (remaining (head (runs s0)) ≤ 4)%nat as P0
    by (destruct (runs s0) as [|[] ?]; cbn; lia).
  assert (remaining (head (runs s4)) = 0)%nat as Hzero by lia.
  assert (runs s4 = []) as Hruns.
  { destruct (runs s4) as [|r rs]; [done|]. by destruct r. }
  split; [done|]. destruct H4 as [_ Hflag]. rewrite Hruns in Hflag.
  destruct (isGenerating (app s4)); [|done]. by destruct Hflag as [Hflag _]; destruct Hflag.
Qed.

(** X14.  In a state reached through the interface with no run in
    flight and at least one image, the "Generate PDF" button is enabled:
    a press sets the generation flag and starts one run, on the list as it
    is at that moment. *)
Theorem button_starts_run (actions : list action) (s : System) :
  s = run actions initial →
  runs s = [] →
  images (app s) ≠ [] →
  step Press_generatePDF s =
    {| app := setIsGenerating true (app s);
       runs := [Encoding (images (app s))] |}.
Proof.
  intros -> Hruns Himages.
  assert (single_run (run actions initial)) as [_ Hflag].
  { apply single_run_run. split; cbn; [lia|done]. }
  destruct (run actions initial) as [st rs]. cbn in *. subst rs.
  assert (isGenerating st = false) as Egen.
  { destruct (isGenerating st); [|done]. by destruct Hflag as [Hflag _]; destruct Hflag. }
  unfold onPress_generatePDF, generatePDF. rewrite Egen.
  destruct (images st) as [|x xs]; [done|]. done.
Qed.

Lemma button_starts_run_witness :
  let l := [scan 0 "a.jpg" 800 600] in
  let actions := [Set_images (dense l); Press_generatePDF;
                  Settle 0 sample_world; Settle 0 sample_world;
                  Settle 0 sample_world; Settle 0 sample_world] in
  let s := run actions initial in
  s = run actions initial ∧ runs s = [] ∧ images (app s) ≠ [] ∧
  step Press_generatePDF s =
    {| app := setIsGenerating true (app s);
       runs := [Encoding (images (app s))] |}.
Proof.
  intros l actions s.
  assert (runs s = []) as Hruns by reflexivity.
  assert (images (app s) ≠ []) as Himages by (vm_compute; discriminate).
  split; [reflexivity|]. split; [exact Hruns|]. split; [exact Himages|].
  exact (button_starts_run actions s eq_refl Hruns Himages).
Defined.

(** ** More on reordering *)

Section Bounds.
Context {A : Type}.
Implicit Types (images : array A) (x y : option A).
Local Open Scope list_scope.

Lemma at_index_beyond images (k : nat) :
  (length images ≤ k)%nat → at_index images (Z.of_nat k) = None.
Proof.
  intros Hk. unfold at_index.
  destruct (Z.ltb_spec (Z.of_nat k) 0); [done|].
  rewrite Nat2Z.id. by rewrite (proj2 (lookup_ge_None _ _) Hk).
Qed.

Lemma at_index_negative images (index : Z) :
  (index < 0)%Z → at_index images index = None.
Proof. intros H. unfold at_index. by destruct (Z.ltb_spec index 0); [|lia]. Qed.

Lemma assign_negative images (index : Z) x :
  (index < 0)%Z → assign images index x = images.
Proof. intros H. unfold assign. by destruct (Z.ltb_spec index 0); [|lia]. Qed.

Lemma assign_beyond images (k : nat) x :
  (length images ≤ k)%nat → (Z.of_nat k < 4294967295)%Z →
  assign images (Z.of_nat k) x = images ++ replicate (k - length images) None ++ [x].
Proof.
  intros Hk Hindex. unfold assign.
  destruct (Z.ltb_spec (Z.of_nat k) 0); [lia|]. rewrite Nat2Z.id.
  destruct (decide _); [lia|].
  by destruct (Z.ltb_spec (Z.of_nat k) 4294967295); [|lia].
Qed.

(** X15.  Away from the end, [moveImageDown(i)] followed by
    [moveImageUp(i + 1)] gives back the list, and [moveImageUp(i + 1)] is
    the same exchange as [moveImageDown(i)]. *)
Theorem moveImageDown_moveImageUp images (i : nat) :
  (i + 1 < length images)%nat →
  moveImageUp (moveImageDown images (Z.of_nat i)) (Z.of_nat i + 1) = images ∧
  moveImageUp images (Z.of_nat i + 1) = moveImageDown images (Z.of_nat i).
Proof.
  intros Hlt.
  destruct (lookup_lt_is_Some_2 images i) as [x Hx]; [lia|].
  destruct (lookup_lt_is_Some_2 images (S i)) as [y Hy]; [lia|].
  replace (Z.of_nat i + 1)%Z with (Z.of_nat (S i)) by lia.
  rewrite (moveImageUp_swap images i x y Hx Hy).
  rewrite (moveImageDown_swap images i x y Hx Hy).
  destruct (swap_lookup images i x y Hx Hy) as (Hj & HSj & _).
  rewrite (moveImageUp_swap _ i y x Hj HSj).
  split; [by apply swap_swap|done].
Qed.

(** Past the end, the two shapes of the result of [moveImageUp], for
    indices that are array indices. *)
Lemma moveImageUp_at_length images :
  (0 < length images)%nat → (Z.of_nat (length images) < 4294967295)%Z →
  moveImageUp images (Z.of_nat (length images))
  = <[(length images - 1)%nat:=None]> images
    ++ [at_index images (Z.of_nat (length images) - 1)].
Proof.
  intros Hpos Hindex. unfold moveImageUp.
  destruct (Z.eqb_spec (Z.of_nat (length images)) 0); [lia|].
  rewrite (at_index_beyond images (length images)) by lia.
  replace (Z.of_nat (length images) - 1)%Z
    with (Z.of_nat (length images - 1)) by lia.
  rewrite (assign_within images (length images - 1) None) by lia.
  rewrite assign_beyond by (rewrite ?length_insert; lia).
  by rewrite length_insert, Nat.sub_diag.
Qed.

Lemma moveImageUp_beyond images (index : nat) :
  (length images < index)%nat → (Z.of_nat index < 4294967295)%Z →
  moveImageUp images (Z.of_nat index)
  = images ++ replicate (index + 1 - length images) None.
Proof.
  intros Hlen Hindex. unfold moveImageUp.
  destruct (Z.eqb_spec (Z.of_nat index) 0); [lia|].
  rewrite (at_index_beyond images index) by lia.
  replace (Z.of_nat index - 1)%Z with (Z.of_nat (index - 1)) by lia.
  rewrite (at_index_beyond images (index - 1)) by lia.
  rewrite (assign_beyond images (index - 1) None) by lia.
  set (grown := images ++ replicate (index - 1 - length images) None ++ [None]).
  assert (length grown = index) as Hgrown.
  { unfold grown. rewrite !length_app, length_replicate. cbn. lia. }
  rewrite assign_beyond by lia. rewrite Hgrown, Nat.sub_diag. cbn [replicate app].
  unfold grown. rewrite <- !app_assoc. f_equal.
  replace (index + 1 - length images)%nat
    with (index - 1 - length images + 2)%nat by lia.
  by rewrite replicate_add.
Qed.

(** X16.  [moveImageUp] has no upper bound check: called with an index
    at or past the end (and below [2^32 - 1], so that it is an array
    index) it grows the list to [index + 1] entries and assigns
    [undefined] at [index - 1], where the last image was if the index is
    the length; the entry that was at [index - 1] moves to [index], and
    the entries before stay. *)
Theorem moveImageUp_past_end images (index : nat) :
  (0 < index)%nat → (length images ≤ index)%nat →
  (Z.of_nat index < 4294967295)%Z →
  let moved := moveImageUp images (Z.of_nat index) in
  length moved = (index + 1)%nat ∧
  moved !! (index - 1)%nat = Some None ∧
  moved !! index = Some (at_index images (Z.of_nat index - 1)) ∧
  ∀ k : nat, (k < index - 1)%nat → (k < length images)%nat →
    moved !! k = images !! k.
Proof.
  intros Hpos Hlen Hindex moved. unfold moved.
  destruct (decide (index = length images)) as [->|Hne].
  - rewrite moveImageUp_at_length by done. split_and!.
    + rewrite length_app, length_insert. cbn. lia.
    + rewrite lookup_app_l by (rewrite length_insert; lia).
      apply list_lookup_insert_eq. lia.
    + rewrite lookup_app_r by (rewrite length_insert; lia).
      by rewrite length_insert, Nat.sub_diag.
    + intros k Hk _. rewrite lookup_app_l by (rewrite length_insert; lia).
      by rewrite list_lookup_insert_ne by lia.
  - rewrite moveImageUp_beyond by lia.
    replace (Z.of_nat index - 1)%Z with (Z.of_nat (index - 1)) by lia.
    rewrite (at_index_beyond images (index - 1)) by lia. split_and!.
    + rewrite length_app, length_replicate. lia.
    + rewrite lookup_app_r by lia. apply lookup_replicate_2. lia.
    + rewrite lookup_app_r by lia. apply lookup_replicate_2. lia.
    + intros k _ Hk. by rewrite lookup_app_l by lia.
Qed.

Lemma moveImageUp_past_end_undefined images (index : nat) :
  (0 < index)%nat → (length images ≤ index)%nat →
  (Z.of_nat index < 4294967295)%Z →
  None ∈ moveImageUp images (Z.of_nat index).
Proof.
  intros Hpos Hlen Hindex. destruct (decide (index = length images)) as [->|Hne].
  - rewrite moveImageUp_at_length by done. apply elem_of_app. left.
    apply (list_elem_of_lookup_2 _ (length images - 1)%nat).
    apply list_lookup_insert_eq. lia.
  - rewrite moveImageUp_beyond by lia. apply elem_of_app. right.
    apply (list_elem_of_lookup_2 _ 0%nat). apply lookup_replicate_2. lia.
Qed.

Lemma moveImageDown_beyond images (index : nat) :
  (length images ≤ index)%nat → (Z.of_nat index + 1 < 4294967295)%Z →
  moveImageDown images (Z.of_nat index)
  = images ++ replicate (index + 2 - length images) None.
Proof.
  intros Hlen Hindex. unfold moveImageDown.
  destruct (Z.eqb_spec (Z.of_nat index) (Z.of_nat (length images) - 1)); [lia|].
  replace (Z.of_nat index + 1)%Z with (Z.of_nat (S index)) by lia.
  rewrite (at_index_beyond images index) by lia.
  rewrite (at_index_beyond images (S index)) by lia.
  rewrite (assign_beyond images index None Hlen) by lia.
  set (grown := images ++ replicate (index - length images) None ++ [None]).
  assert (length grown = S index) as Hgrown.
  { unfold grown. rewrite !length_app, length_replicate. cbn. lia. }
  rewrite assign_beyond by lia. rewrite Hgrown, Nat.sub_diag. cbn [replicate app].
  unfold grown. rewrite <- !app_assoc. f_equal.
  replace (index + 2 - length images)%nat with (index - length images + 2)%nat by lia.
  by rewrite replicate_add.
Qed.

(** X17.  [moveImageDown] called with an index at or past the end (and
    with [index + 1] below [2^32 - 1]) moves nothing: the entries of the
    list stay where they are, the list grows to [index + 2] entries, and
    [undefined] is assigned at [index] and at [index + 1]. *)
Theorem moveImageDown_past_end images (index : nat) :
  (length images ≤ index)%nat → (Z.of_nat index + 1 < 4294967295)%Z →
  let moved := moveImageDown images (Z.of_nat index) in
  length moved = (index + 2)%nat ∧
  moved !! index = Some None ∧
  moved !! (index + 1)%nat = Some None ∧
  ∀ k : nat, (k < length images)%nat → moved !! k = images !! k.
Proof.
  intros Hlen Hindex moved. unfold moved.
  rewrite moveImageDown_beyond by done. split_and!.
  - rewrite length_app, length_replicate. lia.
  - rewrite lookup_app_r by lia. apply lookup_replicate_2. lia.
  - rewrite lookup_app_r by lia. apply lookup_replicate_2. lia.
  - intros k Hk. by rewrite lookup_app_l by lia.
Qed.

(** X18.  With a negative index [moveImageUp] changes nothing, and so
    does [moveImageDown] below [-1]; but [moveImageDown(-1)] replaces the
    first entry by [undefined]. *)
Theorem moveImage_negative_index images (index : Z) :
  ((index < 0)%Z → moveImageUp images index = images) ∧
  ((index < -1)%Z → moveImageDown images index = images) ∧
  moveImageDown images (-1) = <[0%nat:=None]> images.
Proof.
  split_and!.
  - intros Hneg. unfold moveImageUp.
    destruct (Z.eqb_spec index 0); [done|].
    by rewrite !assign_negative by lia.
  - intros Hneg. unfold moveImageDown.
    destruct (Z.eqb_spec index (Z.of_nat (length images) - 1)); [done|].
    by rewrite !assign_negative by lia.
  - unfold moveImageDown.
    destruct (Z.eqb_spec (-1) (Z.of_nat (length images) - 1)) as [E|E].
    + destruct images; [done|]. cbn [length] in E. lia.
    + rewrite (at_index_negative images (-1)) by lia.
      rewrite (assign_negative images (-1)) by lia.
      change (-1 + 1)%Z with (Z.of_nat 0).
      apply assign_within. destruct images; cbn in *; lia.
Qed.
End Bounds.

Lemma moveImageDown_moveImageUp_witness :
  let images := dense ["a"; "b"; "c"] in
  (1 + 1 < length images)%nat ∧
  moveImageUp (moveImageDown images 1) (1 + 1) = images ∧
  moveImageUp images (1 + 1) = moveImageDown images 1.
Proof.
  intros images.
  assert (1 + 1 < length images)%nat as H by (vm_compute; lia).
  split; [exact H|]. exact (moveImageDown_moveImageUp images 1 H).
Defined.

Lemma moveImageUp_past_end_witness :
  let images := dense ["a"; "b"] in
  (0 < 2)%nat ∧ (length images ≤ 2)%nat ∧ (Z.of_nat 2 < 4294967295)%Z ∧
  moveImageUp images 2 = [Some "a"; None; Some "b"] ∧
  length (moveImageUp images 2) = 3%nat ∧
  moveImageUp images 2 !! 1%nat = Some None.
Proof.
  intros images.
  assert (0 < 2)%nat as Hpos by lia.
  assert (length images ≤ 2)%nat as Hlen by (vm_compute; lia).
  assert (Z.of_nat 2 < 4294967295)%Z as Hindex by reflexivity.
  destruct (moveImageUp_past_end images 2 Hpos Hlen Hindex) as (Hl & Hu & _ & _).
  split; [exact Hpos|]. split; [exact Hlen|]. split; [exact Hindex|].
  split; [reflexivity|]. split; [exact Hl | exact Hu].
Defined.

Lemma moveImageDown_past_end_witness :
  let images := dense ["a"; "b"] in
  (length images ≤ 3)%nat ∧ (Z.of_nat 3 + 1 < 4294967295)%Z ∧
  length (moveImageDown images 3) = 5%nat ∧
  moveImageDown images 3 !! 3%nat = Some None ∧
  moveImageDown images 3 !! 4%nat = Some None ∧
  moveImageDown images 3 !! 0%nat = Some (Some "a") ∧
  moveImageDown images 3 !! 1%nat = Some (Some "b").
Proof.
  intros images.
  assert (length images ≤ 3)%nat as Hlen by (vm_compute; lia).
  assert (Z.of_nat 3 + 1 < 4294967295)%Z as Hindex by reflexivity.
  destruct (moveImageDown_past_end images 3 Hlen Hindex) as (Hl & Hi & HSi & Hold).
  split; [exact Hlen|]. split; [exact Hindex|]. split; [exact Hl|].
  split; [exact Hi|]. split; [exact HSi|].
  split; [exact (Hold 0%nat ltac:(vm_compute; lia))
         |exact (Hold 1%nat ltac:(vm_compute; lia))].
Defined.

Lemma moveImage_negative_index_witness :
  let images := dense ["a"; "b"] in
  (-3 < 0)%Z ∧ (-3 < -1)%Z ∧
  moveImageUp images (-3) = images ∧
  moveImageDown images (-3) = images ∧
  moveImageDown images (-1) = [None; Some "b"].
Proof.
  intros images.
  destruct (moveImage_negative_index images (-3)) as (Hup & Hdown & Hfirst).
  assert (-3 < 0)%Z as H0 by lia. assert (-3 < -1)%Z as H1 by lia.
  split; [exact H0|]. split; [exact H1|]. split; [exact (Hup H0)|].
  split; [exact (Hdown H1)|]. exact Hfirst.
Defined.

(** ** More on removal *)

Lemma removeImage_undefined (id0 : string) (prev : array img) :
  None ∈ prev → removeImage id0 prev = Throw (TypeError "id").
Proof.
  induction prev as [|[i|] prev IH]; intros Hin.
  - by apply elem_of_nil in Hin.
  - apply elem_of_cons in Hin as [|Hin]; [done|]. cbn. by rewrite IH.
  - done.
Qed.

(** X19.  [removeImage] throws a [TypeError] exactly when the list has
    an [undefined] entry, whatever the id; otherwise it returns a list
    without [undefined] entries. *)
Theorem removeImage_throws_iff (id0 : string) (prev : array img) :
  (removeImage id0 prev = Throw (TypeError "id") ↔ None ∈ prev) ∧
  (None ∉ prev → ∃ rest, removeImage id0 prev = Ok rest ∧ None ∉ rest).
Proof.
  assert (None ∉ prev → ∃ rest, removeImage id0 prev = Ok rest ∧ None ∉ rest) as Hok.
  { induction prev as [|[i|] prev IH]; intros Hnone.
    - by exists [].
    - destruct IH as (rest & Hrest & Hnot).
      { intros Hin. apply Hnone. by right. }
      cbn. rewrite Hrest. eexists. split; [done|].
      destruct (String.eqb (id i) id0); [done|].
      intros Hin. apply elem_of_cons in Hin as [|Hin]; [done|]. by apply Hnot.
    - destruct Hnone. by left. }
  split; [|done]. split; [|apply removeImage_undefined].
  clear Hok. induction prev as [|[i|] prev IH]; cbn; [done| |by left].
  destruct (removeImage id0 prev) as [rest|e]; [done|].
  intros [= ->]. right. by apply IH.
Qed.

Lemma undefined_entry_stops (w : World) (snapshot : array img) (st : App) :
  None ∈ snapshot → (resume w (Encoding snapshot) st).2 = None.
Proof.
  intros Hin. apply list_elem_of_lookup_1 in Hin as [k Hk].
  assert (∃ e, imap (readImage w) snapshot !! k = Some (Throw e)) as [e He].
  { rewrite readImage_lookup, Hk. by eexists. }
  destruct (Promise_all_rejected (settled w) _ _ _ He) as (k' & e' & _ & Hall).
  unfold resume. by rewrite Hall.
Qed.

(** X20.  A [moveImageUp] at or past the end leaves a list that the
    other operations cannot use (for an index below [2^32 - 1]):
    [removeImage] throws on it for every id, and a run of [generatePDF]
    over it stops at the reads. *)
Theorem moveImageUp_past_end_breaks
    (w : World) (images0 : array img) (index : nat) (id0 : string) (st : App) :
  (0 < index)%nat → (length images0 ≤ index)%nat →
  (Z.of_nat index < 4294967295)%Z →
  removeImage id0 (moveImageUp images0 (Z.of_nat index)) = Throw (TypeError "id") ∧
  (resume w (Encoding (moveImageUp images0 (Z.of_nat index))) st).2 = None.
Proof.
  intros Hpos Hlen Hindex.
  pose proof (moveImageUp_past_end_undefined images0 index Hpos Hlen Hindex) as Hin.
  split; [by apply removeImage_undefined|by apply undefined_entry_stops].
Qed.

Lemma moveImageUp_past_end_breaks_witness :
  let images0 := dense [scan 0 "a.jpg" 800 600] in
  (0 < 1)%nat ∧ (length images0 ≤ 1)%nat ∧ (Z.of_nat 1 < 4294967295)%Z ∧
  removeImage "1700000000000-0" (moveImageUp images0 1) = Throw (TypeError "id") ∧
  (resume sample_world (Encoding (moveImageUp images0 1))
     (generating [scan 0 "a.jpg" 800 600])).2 = None.
Proof.
  intros images0.
  assert (0 < 1)%nat as Hpos by lia.
  assert (length images0 ≤ 1)%nat as Hlen by (vm_compute; lia).
  assert (Z.of_nat 1 < 4294967295)%Z as Hindex by reflexivity.
  split; [exact Hpos|]. split; [exact Hlen|]. split; [exact Hindex|].
  exact (moveImageUp_past_end_breaks sample_world images0 1 "1700000000000-0"
           (generating [scan 0 "a.jpg" 800 600]) Hpos Hlen Hindex).
Defined.

Lemma insert_neighbours_Permutation {B : Type} (l : list B) (j : nat) (a b : B) :
  l !! j = Some a → l !! S j = Some b → <[S j:=a]> (<[j:=b]> l) ≡ₚ l.
Proof.
  revert j. induction l as [|x l IH]; intros [|j] Ha Hb; try done.
  - destruct l as [|x' l]; [done|]. cbn in *. injection Ha as ->. injection Hb as ->.
    apply perm_swap.
  - cbn in *. constructor. by apply IH.
Qed.

(** X21.  On a list without [undefined] entries, a move away from the
    boundary gives a list without [undefined] entries, of the same
    images in another order; in particular ids that were distinct stay
    distinct. *)
Theorem moves_keep_images (l : list img) (i : nat) :
  (i + 1 < length l)%nat →
  ∃ l' : list img,
    moveImageDown (dense l) (Z.of_nat i) = dense l' ∧
    moveImageUp (dense l) (Z.of_nat i + 1) = dense l' ∧
    l' ≡ₚ l ∧
    (NoDup (id <$> l) → NoDup (id <$> l')).
Proof.
  intros Hlt.
  destruct (lookup_lt_is_Some_2 l i) as [a Ha]; [lia|].
  destruct (lookup_lt_is_Some_2 l (S i)) as [b Hb]; [lia|].
  exists (<[S i:=a]> (<[i:=b]> l)).
  assert (dense l !! i = Some (Some a)) as Ha'
    by (unfold dense; by rewrite list_lookup_fmap, Ha).
  assert (dense l !! S i = Some (Some b)) as Hb'
    by (unfold dense; by rewrite list_lookup_fmap, Hb).
  assert (<[S i:=a]> (<[i:=b]> l) ≡ₚ l) as Hperm
    by (by apply insert_neighbours_Permutation).
  split_and!.
  - rewrite (moveImageDown_swap _ i _ _ Ha' Hb'). unfold dense.
    by rewrite !list_fmap_insert.
  - replace (Z.of_nat i + 1)%Z with (Z.of_nat (S i)) by lia.
    rewrite (moveImageUp_swap _ i _ _ Ha' Hb'). unfold dense.
    by rewrite !list_fmap_insert.
  - done.
  - intros Hnodup. by rewrite Hperm.
Qed.

Lemma moves_keep_images_witness :
  let l := [scan 0 "a.jpg" 800 600; scan 1 "b.png" 600 800] in
  (0 + 1 < length l)%nat ∧
  ∃ l' : list img,
    moveImageDown (dense l) 0 = dense l' ∧
    moveImageUp (dense l) (0 + 1) = dense l' ∧
    l' ≡ₚ l ∧
    (NoDup (id <$> l) → NoDup (id <$> l')).
Proof.
  intros l.
  assert (0 + 1 < length l)%nat as H by (vm_compute; lia).
  split; [exact H|]. exact (moves_keep_images l 0 H).
Defined.

(** X22.  After [removeImage(id)] no entry has that id, so that a second
    removal of the same id changes nothing; the entries kept are a
    sublist of the list, and ids that were distinct stay distinct. *)
Theorem removeImage_idempotent (id0 : string) (l : list img) :
  ∃ l' : list img,
    removeImage id0 (dense l) = Ok (dense l') ∧
    removeImage id0 (dense l') = Ok (dense l') ∧
    (∀ y, y ∈ l' → id y ≠ id0) ∧
    l' `sublist_of` l ∧
    (NoDup (id <$> l) → NoDup (id <$> l')).
Proof.
  exists (filter (λ i, id i ≠ id0) l).
  assert (∀ y, y ∈ filter (λ i, id i ≠ id0) l → id y ≠ id0) as Hgone.
  { intros y Hy. by apply list_elem_of_filter in Hy as [? _]. }
  split_and!.
  - apply removeImage_filter.
  - rewrite removeImage_filter. do 2 f_equal. by apply filter_all.
  - done.
  - apply sublist_filter.
  - intros Hnodup.
    apply (sublist_NoDup (id <$> filter (λ i, id i ≠ id0) l) (id <$> l)); [done|].
    apply fmap_sublist, sublist_filter.
Qed.

(** X23.  Removals commute: removing two ids in either order leaves the
    same list. *)
Theorem removeImage_commutes (id1 id2 : string) (l : list img) :
  ∃ l1 l2 l12 : list img,
    removeImage id1 (dense l) = Ok (dense l1) ∧
    removeImage id2 (dense l) = Ok (dense l2) ∧
    removeImage id2 (dense l1) = Ok (dense l12) ∧
    removeImage id1 (dense l2) = Ok (dense l12).
Proof.
  exists (filter (λ i, id i ≠ id1) l), (filter (λ i, id i ≠ id2) l),
         (filter (λ i, id i ≠ id2) (filter (λ i, id i ≠ id1) l)).
  rewrite !removeImage_filter. split_and!; try done.
  do 2 f_equal. rewrite !list_filter_filter.
  apply list_filter_iff. intros x. tauto.
Qed.

(** ** Picking images *)

Lemma pretty_N_go_no_dash (x : N) (s : string) :
  no_dash s → no_dash (pretty_N_go x s).
Proof.
  revert s. induction (N.lt_wf_0 x) as [x _ IH]; intros s Hs.
  assert (x = 0 ∨ 0 < x)%N as [->|Hpos] by lia.
  - by rewrite pretty_N_go_0.
  - rewrite pretty_N_go_step by done. apply IH.
    + by apply N.div_lt.
    + split; [|done]. unfold pretty_N_char. by repeat case_match.
Qed.

Lemma pretty_N_no_dash (n : N) : no_dash (pretty n).
Proof.
  unfold pretty, pretty_N.
  case_decide; [by split|]. by apply pretty_N_go_no_dash.
Qed.

Lemma pretty_nat_no_dash (n : nat) : no_dash (pretty n).
Proof. apply pretty_N_no_dash. Qed.

Lemma dash_split (a a' b b' : string) :
  no_dash a → no_dash a' →
  a +:+ "-" +:+ b = a' +:+ "-" +:+ b' → a = a' ∧ b = b'.
Proof.
  revert a'. induction a as [|c a IH]; intros [|c' a'] Ha Ha' E.
  - split; [done|]. by injection E.
  - rewrite string_app_cons in E. injection E as <- _. by destruct Ha' as [[] _].
  - rewrite string_app_cons in E. injection E as -> _. by destruct Ha as [[] _].
  - rewrite !string_app_cons in E. injection E as -> E.
    destruct Ha as [_ Ha], Ha' as [_ Ha'].
    destruct (IH a' Ha Ha' E) as [-> ->]. done.
Qed.

(** An id determines the clock reading and the index it was built from. *)
Lemma id_inj (t t' : N) (k k' : nat) :
  pretty t +:+ "-" +:+ pretty k = pretty t' +:+ "-" +:+ pretty k' →
  t = t' ∧ k = k'.
Proof.
  intros E. apply dash_split in E as [Ht Hk]; try apply pretty_N_no_dash.
  split; by apply (inj pretty).
Qed.

Lemma newImages_lookup (p : Picker) (chosen : list Asset.t) (k : nat) :
  newImages p chosen !! k =
  (λ a, {| id := pretty (Date_now p k) +:+ "-" +:+ pretty k;
           uri := Asset.uri a;
           width := Asset.width a;
           height := Asset.height a |}) <$> chosen !! k.
Proof. unfold newImages. by rewrite list_lookup_imap. Qed.

Lemma newImages_id (p : Picker) (chosen : list Asset.t) (k : nat) (i : img) :
  newImages p chosen !! k = Some i →
  id i = pretty (Date_now p k) +:+ "-" +:+ pretty k.
Proof.
  rewrite newImages_lookup. destruct (chosen !! k); [|done]. by intros [= <-].
Qed.

(** X24.  The images made from one batch of assets follow the order of
    the batch and carry each asset's locator and dimensions, and their ids
    are pairwise distinct, whatever the clock does during the call. *)
Theorem newImages_batch (p : Picker) (chosen : list Asset.t) :
  length (newImages p chosen) = length chosen ∧
  uri <$> newImages p chosen = Asset.uri <$> chosen ∧
  width <$> newImages p chosen = Asset.width <$> chosen ∧
  height <$> newImages p chosen = Asset.height <$> chosen ∧
  NoDup (id <$> newImages p chosen).
Proof.
  split_and!.
  - apply length_imap.
  - apply list_eq. intros k. rewrite !list_lookup_fmap, newImages_lookup.
    by destruct (chosen !! k).
  - apply list_eq. intros k. rewrite !list_lookup_fmap, newImages_lookup.
    by destruct (chosen !! k).
  - apply list_eq. intros k. rewrite !list_lookup_fmap, newImages_lookup.
    by destruct (chosen !! k).
  - apply NoDup_alt. intros j k x Hj Hk.
    rewrite list_lookup_fmap in Hj, Hk.
    destruct (newImages p chosen !! j) as [ij|] eqn:Ej; [|done].
    destruct (newImages p chosen !! k) as [ik|] eqn:Ek; [|done].
    cbn in Hj, Hk. injection Hj as Hj. injection Hk as Hk.
    apply newImages_id in Ej, Ek. rewrite Ej in Hj. rewrite Ek in Hk.
    rewrite <- Hk in Hj. by apply id_inj in Hj as [_ ?].
Qed.

(** X25.  Two batches picked at clock readings that never coincide
    share no id: the ids of the two batches together are pairwise
    distinct. *)
Theorem batches_share_no_id (p1 p2 : Picker) (chosen1 chosen2 : list Asset.t) :
  (∀ j k : nat, Date_now p1 j ≠ Date_now p2 k) →
  NoDup (id <$> (newImages p1 chosen1 ++ newImages p2 chosen2)%list).
Proof.
  intros Hclock. rewrite fmap_app. apply NoDup_app.
  assert (∀ p chosen, NoDup (id <$> newImages p chosen)) as Hbatch.
  { intros p chosen. apply NoDup_alt. intros j k x Hj Hk.
    rewrite list_lookup_fmap in Hj, Hk.
    destruct (newImages p chosen !! j) as [ij|] eqn:Ej; [|done].
    destruct (newImages p chosen !! k) as [ik|] eqn:Ek; [|done].
    cbn in Hj, Hk. injection Hj as Hj. injection Hk as Hk.
    apply newImages_id in Ej, Ek. rewrite Ej in Hj. rewrite Ek in Hk.
    rewrite <- Hk in Hj. by apply id_inj in Hj as [_ ?]. }
  split_and!; [apply Hbatch| |apply Hbatch].
  intros x Hx1 Hx2.
  apply list_elem_of_fmap in Hx1 as (i1 & -> & Hi1).
  apply list_elem_of_fmap in Hx2 as (i2 & E & Hi2).
  apply list_elem_of_lookup_1 in Hi1 as [j Hj].
  apply list_elem_of_lookup_1 in Hi2 as [k Hk].
  apply newImages_id in Hj, Hk. rewrite Hj, Hk in E.
  apply id_inj in E as [E _]. by apply (Hclock j k).
Qed.

Lemma batches_share_no_id_witness :
  let first := picked 1700000000000 [asset "a.jpg" 800 600; asset "b.png" 600 800] in
  let second := picked 1700000004321 [asset "c.jpg" 1024 768] in
  (∀ j k : nat, Date_now first j ≠ Date_now second k) ∧
  NoDup (id <$> (newImages first [asset "a.jpg" 800 600; asset "b.png" 600 800]
                 ++ newImages second [asset "c.jpg" 1024 768])%list).
Proof.
  intros first second.
  assert (∀ j k : nat, Date_now first j ≠ Date_now second k) as Hclock
    by (intros j k; cbn; discriminate).
  split; [exact Hclock|].
  exact (batches_share_no_id first second _ _ Hclock).
Defined.

Lemma requestPermissions_granted (p : Picker) (st : App) :
  OS_is_web p = true ∨ requestMediaLibraryPermissionsAsync p = Ok "granted" →
  requestPermissions p st = Ok (st, true).
Proof.
  unfold requestPermissions. intros [->| ->]; [done|].
  by destruct (OS_is_web p).
Qed.

(** X26.  With the permission granted (or on the web, where none is
    asked) and a selection made, [pickImages] appends the batch to the
    list: the entries already there keep their positions, the new ones
    follow in the order of the selection, and neither the generation flag
    nor the alerts change. *)
Theorem pickImages_appends
    (w : World) (p : Picker) (chosen : list Asset.t) (st : App) :
  OS_is_web p = true ∨ requestMediaLibraryPermissionsAsync p = Ok "granted" →
  launchImageLibraryAsync p = Ok {| canceled := false; assets := Some chosen |} →
  ∃ st' : App,
    pickImages w p st = Ok st' ∧
    images st' = (images st ++ dense (newImages p chosen))%list ∧
    isGenerating st' = isGenerating st ∧ alerts st' = alerts st ∧
    length (images st') = (length (images st) + length chosen)%nat ∧
    (∀ k : nat, (k < length (images st))%nat → images st' !! k = images st !! k) ∧
    (∀ (k : nat) (a : Asset.t), chosen !! k = Some a →
       images st' !! (length (images st) + k)%nat =
       Some (Some {| id := pretty (Date_now p k) +:+ "-" +:+ pretty k;
                     uri := Asset.uri a;
                     width := Asset.width a;
                     height := Asset.height a |})).
Proof.
  intros Hperm Hpick. eexists. split.
  { unfold pickImages. rewrite (requestPermissions_granted p st Hperm), Hpick. done. }
  cbn. split_and!; try done.
  - unfold dense. rewrite length_app, length_fmap. unfold newImages.
    by rewrite length_imap.
  - intros k Hk. by rewrite lookup_app_l.
  - intros k a Hk. rewrite lookup_app_r by lia.
    replace (length (images st) + k - length (images st))%nat with k by lia.
    unfold dense. by rewrite list_lookup_fmap, newImages_lookup, Hk.
Qed.

Lemma pickImages_appends_witness :
  let chosen := [asset "c.jpg" 1024 768] in
  let p := picked 1700000004321 chosen in
  let st := idle [scan 0 "a.jpg" 800 600] in
  (OS_is_web p = true ∨ requestMediaLibraryPermissionsAsync p = Ok "granted") ∧
  launchImageLibraryAsync p = Ok {| canceled := false; assets := Some chosen |} ∧
  pickImages sample_world p st =
    Ok {| images := dense [scan 0 "a.jpg" 800 600;
                           {| id := "1700000004321-0"; uri := "c.jpg";
                              width := Fin 1024; height := Fin 768 |}];
          isGenerating := false; alerts := [] |}.
Proof.
  intros chosen p st.
  assert (OS_is_web p = true ∨ requestMediaLibraryPermissionsAsync p = Ok "granted")
    as Hperm by (right; reflexivity).
  split; [exact Hperm|]. split; [reflexivity|].
  destruct (pickImages_appends sample_world p chosen st Hperm eq_refl)
    as (st' & -> & Himages & Hflag & Halerts & _).
  destruct st' as [images' flag' alerts']. cbn in Himages, Hflag, Halerts.
  by rewrite Himages, Hflag, Halerts.
Defined.

(** X27.  Whatever the permission answer and the picker return,
    [pickImages] never removes or moves an entry and never touches the
    generation flag: the list it leaves is the old one with some images
    appended (none unless a selection was made), and at most one alert is
    added. *)
Theorem pickImages_only_appends (w : World) (p : Picker) (st st' : App) :
  pickImages w p st = Ok st' →
  isGenerating st' = isGenerating st ∧
  (∃ added : list img,
     images st' = (images st ++ dense added)%list ∧
     (added ≠ [] →
      ∃ chosen, launchImageLibraryAsync p
                = Ok {| canceled := false; assets := Some chosen |} ∧
                added = newImages p chosen)) ∧
  (alerts st' = alerts st ∨ ∃ a, alerts st' = (alerts st ++ [a])%list).
Proof.
  unfold pickImages, requestPermissions.
  assert (images st = (images st ++ dense [])%list) as Hnil by (by rewrite app_nil_r).
  destruct (negb (OS_is_web p)).
  - destruct (requestMediaLibraryPermissionsAsync p) as [status|e]; [|done].
    destruct (negb (String.eqb status "granted")).
    + intros [= <-]. cbn. split_and!; [done|by exists []|right; by eexists].
    + destruct (launchImageLibraryAsync p) as [[c [chosen|]]|e].
      * destruct c; intros [= <-]; cbn.
        { split_and!; [done|by exists []|by left]. }
        split_and!; [done| |by left]. exists (newImages p chosen).
        split; [done|]. intros _. by exists chosen.
      * destruct c; intros [= <-]; cbn;
          (split_and!; [done|by exists []|by left]).
      * intros [= <-]. cbn. split_and!; [done|by exists []|right; by eexists].
  - destruct (launchImageLibraryAsync p) as [[c [chosen|]]|e].
    + destruct c; intros [= <-]; cbn.
      { split_and!; [done|by exists []|by left]. }
      split_and!; [done| |by left]. exists (newImages p chosen).
      split; [done|]. intros _. by exists chosen.
    + destruct c; intros [= <-]; cbn;
        (split_and!; [done|by exists []|by left]).
    + intros [= <-]. cbn. split_and!; [done|by exists []|right; by eexists].
Qed.

(** X28.  Without the permission (off the web) [pickImages] shows the
    "Permission Required" alert and does nothing else: the picker's return
    plays no part, and the list and the flag are as before. *)
Theorem pickImages_denied (w : World) (p : Picker) (status : string) (st : App) :
  OS_is_web p = false →
  requestMediaLibraryPermissionsAsync p = Ok status →
  status ≠ "granted" →
  pickImages w p st =
    Ok {| images := images st; isGenerating := isGenerating st;
          alerts := (alerts st ++
            [("Permission Required",
              "Sorry, we need camera roll permissions to select images!")])%list |}.
Proof.
  intros Hweb Hreq Hstatus. unfold pickImages, requestPermissions.
  rewrite Hweb, Hreq. cbn.
  by rewrite (proj2 (String.eqb_neq status "granted") Hstatus).
Qed.

Lemma pickImages_only_appends_witness :
  let p := picked 1700000004321 [asset "c.jpg" 1024 768] in
  let st := idle [scan 0 "a.jpg" 800 600] in
  let st' := {| images := dense [scan 0 "a.jpg" 800 600;
                                 {| id := "1700000004321-0"; uri := "c.jpg";
                                    width := Fin 1024; height := Fin 768 |}];
                isGenerating := false; alerts := [] |} in
  pickImages sample_world p st = Ok st' ∧
  isGenerating st' = isGenerating st ∧
  (∃ added : list img,
     images st' = (images st ++ dense added)%list ∧
     (added ≠ [] →
      ∃ chosen, launchImageLibraryAsync p
                = Ok {| canceled := false; assets := Some chosen |} ∧
                added = newImages p chosen)) ∧
  (alerts st' = alerts st ∨ ∃ a, alerts st' = (alerts st ++ [a])%list).
Proof.
  intros p st st'.
  assert (pickImages sample_world p st = Ok st') as H by reflexivity.
  split; [exact H|]. exact (pickImages_only_appends sample_world p st st' H).
Defined.

Lemma pickImages_denied_witness :
  let p := {| OS_is_web := false;
              requestMediaLibraryPermissionsAsync := Ok "denied";
              launchImageLibraryAsync :=
                Ok {| canceled := false; assets := Some [asset "c.jpg" 1024 768] |};
              Date_now := λ _, 1700000004321%N |} in
  OS_is_web p = false ∧
  requestMediaLibraryPermissionsAsync p = Ok "denied" ∧
  "denied" ≠ "granted" ∧
  pickImages sample_world p (idle []) =
    Ok {| images := []; isGenerating := false;
          alerts := [("Permission Required",
                      "Sorry, we need camera roll permissions to select images!")] |}.
Proof.
  intros p.
  assert ("denied" ≠ "granted") as Hne by discriminate.
  split; [reflexivity|]. split; [reflexivity|]. split; [exact Hne|].
  exact (pickImages_denied sample_world p "denied" (idle []) eq_refl eq_refl Hne).
Defined.

(** X29.  When every image is read but the printer fails, the run ends
    with the single alert "Failed to generate PDF" followed by the
    printer's message, the flag cleared; nothing is shared. *)
Theorem print_failure_fails_run
    (w : World) (l : list img) (content : string → string) (e : error) (st : App) :
  (∀ i, i ∈ l → readAsStringAsync w (uri i) = Ok (content (uri i))) →
  printToFileAsync w (imageHTML
    ((λ i, {| image := i;
              dataUri := "data:" +:+ mimeType (uri i) +:+ ";base64,"
                         +:+ content (uri i) |}) <$> l)) = Throw e →
  outcome w (Encoding (dense l)) st =
    {| images := images st; isGenerating := false;
       alerts := (alerts st ++
         [("Error", "Failed to generate PDF: " +:+ message w e)])%list |}.
Proof.
  intros Hl Hprint.
  rewrite outcome_Encoding, (reads_in_order w l content Hl), Promise_all_fulfilled.
  by rewrite outcome_Rendering, Hprint.
Qed.

Lemma print_failure_fails_run_witness :
  let l := [scan 0 "a.jpg" 800 600] in
  (∀ i, i ∈ l → readAsStringAsync no_printer (uri i) = Ok "AAAA") ∧
  outcome no_printer (Encoding (dense l)) (generating l) =
    {| images := dense l; isGenerating := false;
       alerts := [("Error", "Failed to generate PDF: Printing did not complete")] |}.
Proof.
  intros l.
  assert (∀ i, i ∈ l → readAsStringAsync no_printer (uri i) = Ok "AAAA")
    as Hl by (intros i _; reflexivity).
  split; [exact Hl|].
  exact (print_failure_fails_run no_printer l (λ _, "AAAA")
           (Error "Printing did not complete") (generating l) Hl eq_refl).
Defined.

(** X30.  The preview height of an image with a zero dimension is not
    guarded either: 0 for a zero height, [Infinity] for a zero width, and
    [NaN] when both are zero. *)
Theorem previewHeight_degenerate (item : img) (q z z' : Q) :
  (0 < q)%Q → (z == 0)%Q → (z' == 0)%Q →
  (width item = Fin q → height item = Fin z → previewHeight item = Fin 0) ∧
  (width item = Fin z → height item = Fin q → previewHeight item = PosInf) ∧
  (width item = Fin z → height item = Fin z' → previewHeight item = NaN).
Proof.
  intros Hq Hz Hz'. unfold previewHeight, aspectRatio, containerWidth.
  split_and!; intros -> ->; cbn [js_div].
  - rewrite (Qzero_true z Hz), (Qzero_false q), (Qpos_true q Hq) by lra. done.
  - rewrite (Qzero_false q) by lra. cbn [js_div].
    rewrite (Qzero_true (z / q)) by (rewrite Hz; field; lra). done.
  - by rewrite (Qzero_true z Hz), (Qzero_true z' Hz').
Qed.

Lemma previewHeight_degenerate_witness :
  (0 < 800)%Q ∧ (0 == 0)%Q ∧
  previewHeight (photo 800 0) = Fin 0 ∧
  previewHeight (photo 0 800) = PosInf ∧
  previewHeight (photo 0 0) = NaN.
Proof.
  assert (0 < 800)%Q as Hq by reflexivity.
  assert (0 == 0)%Q as Hz by reflexivity.
  split; [exact Hq|]. split; [exact Hz|].
  destruct (previewHeight_degenerate (photo 800 0) 800 0 0 Hq Hz Hz) as (H1 & _ & _).
  destruct (previewHeight_degenerate (photo 0 800) 800 0 0 Hq Hz Hz) as (_ & H2 & _).
  destruct (previewHeight_degenerate (photo 0 0) 800 0 0 Hq Hz Hz) as (_ & _ & H3).
  split; [exact (H1 eq_refl eq_refl)|].
  split; [exact (H2 eq_refl eq_refl)|exact (H3 eq_refl eq_refl)].
Defined.

Lemma removeImage_throws_iff_witness :
  None ∈ [Some (scan 0 "a.jpg" 800 600); None] ∧
  removeImage "1700000000000-0" [Some (scan 0 "a.jpg" 800 600); None]
  = Throw (TypeError "id").
Proof.
  assert (None ∈ [Some (scan 0 "a.jpg" 800 600); None]) as Hin
    by (right; left).
  split; [exact Hin|].
  exact (proj2 (proj1 (removeImage_throws_iff "1700000000000-0"
                         [Some (scan 0 "a.jpg" 800 600); None])) Hin).
Defined.

Lemma encoding_stops_iff_witness :
  (∃ k : nat,
     [Some (scan 0 "a.jpg" 800 600); None] !! k = Some None ∨
     ∃ i e, [Some (scan 0 "a.jpg" 800 600); None] !! k = Some (Some i) ∧
            readAsStringAsync sample_world (uri i) = Throw e) ∧
  (resume sample_world (Encoding [Some (scan 0 "a.jpg" 800 600); None])
     (generating [])).2 = None.
Proof.
  assert (∃ k : nat,
     [Some (scan 0 "a.jpg" 800 600); None] !! k = Some None ∨
     ∃ i e, [Some (scan 0 "a.jpg" 800 600); None] !! k = Some (Some i) ∧
            readAsStringAsync sample_world (uri i) = Throw e) as H
    by (exists 1%nat; left; reflexivity).
  split; [exact H|].
  exact (proj2 (encoding_stops_iff sample_world _ (generating [])) H).
Defined.
